(** * update_stream_service.py: the block locator and replacer

    A shallow embedding of the patching script
    [src/update_stream_service.py].  The script reads one TypeScript file,
    removes two imports, inserts two declarations unless they are already
    there, replaces two method bodies located by brace counting, and writes
    the file back.

    Python strings are sequences of Unicode code points: a text buffer is a
    [list N], offsets are Python [int]s ([Z]), and [str.find] keeps its
    [-1] for "not found". *)

From stdpp Require Import list strings gmap.
From Stdlib Require Import ZArith Lia Ascii.

Local Open Scope Z_scope.

(** ** Text *)

Abbreviation char := N (only parsing).
Abbreviation str := (list N) (only parsing).

(** A literal of the script, as code points.  All literals of the script are
    ASCII except the comment tail of [target], spelled out below. *)
Fixpoint chars (s : string) : str :=
  match s with
  | EmptyString => []
  | String a s' => Ascii.N_of_ascii a :: chars s'
  end.

Definition open_brace : char := 123%N.   (* '{' *)
Definition close_brace : char := 125%N.  (* '}' *)

(** [s.startswith(p)] *)
Fixpoint startswith (p s : str) : bool :=
  match p, s with
  | [], _ => true
  | _ :: _, [] => false
  | a :: p', b :: s' => (a =? b)%N && startswith p' s'
  end.

(** [sub in s] *)
Fixpoint contains (s sub : str) : bool :=
  startswith sub s ||
  match s with
  | [] => false
  | _ :: s' => contains s' sub
  end.

(** [s.find(sub)]: the lowest offset at which [sub] starts, or [-1]. *)
Fixpoint find_from (s sub : str) (i : Z) : Z :=
  if startswith sub s then i
  else match s with
       | [] => -1
       | _ :: s' => find_from s' sub (i + 1)
       end.

Definition find (s sub : str) : Z := find_from s sub 0.

(** [s.replace(old, new)] for a non-empty [old]: occurrences are taken left
    to right and do not overlap; [skip] counts the characters of the current
    occurrence still to be dropped. *)
Fixpoint replace_from (old new s : str) (skip : nat) : str :=
  match s with
  | [] => []
  | c :: s' =>
      match skip with
      | S k => replace_from old new s' k
      | O =>
          if startswith old s
          then new ++ replace_from old new s' (length old - 1)
          else c :: replace_from old new s' 0
      end
  end.

(** [s.replace(old, new)]; with an empty [old] Python puts [new] before every
    character and at the end. *)
Definition replace (s old new : str) : str :=
  match old with
  | [] => new ++ flat_map (λ c, c :: new) s
  | _ :: _ => replace_from old new s 0
  end.

(** Slice bounds: a negative bound counts from the end, and every bound is
    clamped to the string. *)
Definition slice_bound (len i : Z) : nat :=
  Z.to_nat (if i <? 0 then Z.max 0 (i + len) else Z.min i len).

(** [s[:j]] *)
Definition slice_to (s : str) (j : Z) : str :=
  take (slice_bound (Z.of_nat (length s)) j) s.

(** [s[i:]] *)
Definition slice_from (s : str) (i : Z) : str :=
  drop (slice_bound (Z.of_nat (length s)) i) s.

(** ** Errors *)

Inductive exn :=
  | SystemExit (msg : string)
  | FileNotFoundError (path : string).

Inductive result (A : Type) :=
  | Ok (a : A)
  | Raise (e : exn).
Arguments Ok {A} a.
Arguments Raise {A} e.

#[global] Instance result_ret : MRet result := @Ok.

#[global] Instance result_bind : MBind result :=
  λ A B k r, match r with
             | Ok a => k a
             | Raise e => Raise e
             end.

(** ** The block locator *)

Record Span := { start_index : Z; end_index : Z }.

(** The [for i in range(start_index, len(text))] loop: [rest] is
    [text[i:]], and the result is [end_index] ([None] when the loop runs
    off the end of the text). *)
Fixpoint scan_from (rest : str) (i brace_depth : Z) : option Z :=
  match rest with
  | [] => None
  | ch :: rest' =>
      if (ch =? open_brace)%N then scan_from rest' (i + 1) (brace_depth + 1)
      else if (ch =? close_brace)%N then
        let brace_depth := brace_depth - 1 in
        if brace_depth =? 0 then Some i
        else scan_from rest' (i + 1) brace_depth
      else scan_from rest' (i + 1) brace_depth
  end.

Definition scan (text : str) (start_index : Z) : option Z :=
  scan_from (drop (Z.to_nat start_index) text) start_index 0.

(** Lines 26-43 and 82-98 of the script are the same code for two
    signatures; [name] is the method name used in the exit messages. *)
Definition locate (text signature : str) (name : string) : result Span :=
  let start_index := find text signature in
  if start_index =? -1 then Raise (SystemExit (name +:+ " not found"))
  else
    match scan text start_index with
    | None => Raise (SystemExit ("Unable to locate end of " +:+ name))
    | Some end_index => Ok {| start_index := start_index; end_index := end_index |}
    end.

(** ** The block replacer: [text[:start_index] + new + text[end_index + 1:]] *)
Definition replace_block (text : str) (sp : Span) (new : str) : str :=
  slice_to text (start_index sp) ++ new ++ slice_from text (end_index sp + 1).

Definition locate_and_replace (text signature : str) (name : string) (new : str)
  : result str :=
  sp ← locate text signature name;
  mret (replace_block text sp new).

(** ** Guarded insertion: [if marker not in text: text = text.replace(..)] *)
Definition insert_if_absent (marker target new text : str) : str :=
  if negb (contains text marker) then replace text target new else text.

(** ** The literals of the script *)

Definition import_fs : str := chars "import * as fs from 'fs';
".

Definition import_path : str := chars "import * as path from 'path';
".

Definition field_marker : str := chars "private activeScreenshotTasks".

Definition target : str :=
  chars "  private mcpClients: Map<string, PlaywrightMcpClient>; // ?? MCP"
  ++ [191; 205; 187; 167; 182; 203; 187; 186; 180; 230; 10]%N.

Definition field_decl : str := chars "  private activeScreenshotTasks: Set<string>;
".

Definition init_marker : str := chars "this.activeScreenshotTasks = new Set();".

Definition init_target : str := chars "    this.mcpClients = new Map();
".

Definition init_new : str := chars "    this.mcpClients = new Map();
    this.activeScreenshotTasks = new Set();
".

Definition start_signature : str := chars "  startStreamWithMcp(runId: string, mcpClient: PlaywrightMcpClient): void {".

Definition new_start : str := chars "  startStreamWithMcp(runId: string, mcpClient: PlaywrightMcpClient): void {
    if (this.timers.has(runId)) {
      return;
    }

    const fps = this.config.fps > 0 ? this.config.fps : 1;
    const interval = Math.max(200, Math.floor(1000 / fps));
    this.mcpClients.set(runId, mcpClient);

    const timer = setInterval(async () => {
      if (this.activeScreenshotTasks.has(runId)) {
        return;
      }

      this.activeScreenshotTasks.add(runId);
      this.stats.totalAttempts += 1;

      try {
        const result = await mcpClient.takeScreenshotForStream({ runId });
        await this.pushFrameAndUpdateCache(runId, result.buffer);
        this.stats.successfulScreenshots += 1;
        this.updateAverageProcessingTime(result.durationMs ?? 0);
      } catch (error) {
        await this.handleStreamFailure(runId, error);
      } finally {
        this.activeScreenshotTasks.delete(runId);
      }
    }, interval);

    this.timers.set(runId, timer);
    console.log(`[StreamService] MCP stream started: ${runId}, interval=${interval}ms`);
  }
".

Definition handle_signature : str := chars "  private async handleStreamFailure(runId: string, rawError: any): Promise<void> {".

Definition new_handle : str := chars "  private async handleStreamFailure(runId: string, rawError: unknown): Promise<void> {
    const message = rawError instanceof Error ? rawError.message : String(rawError ?? 'Unknown error');
    const shortId = runId.substring(0, 8);

    this.stats.fallbackFrames += 1;
    console.warn(`[StreamService] MCP screenshot failed (${shortId}): ${message}`);

    const cachedFrame = this.frameBuffer.get(runId);
    if (cachedFrame) {
      try {
        await this.pushFrameWithoutCache(runId, cachedFrame);
      } catch (pushError) {
        console.error(`[StreamService] failed to resend cached frame: ${runId}`, pushError);
      }
    } else {
      try {
        const placeholder = await this.createPlaceholderFrame();
        await this.pushFrameWithoutCache(runId, placeholder);
      } catch (placeholderError) {
        console.error(`[StreamService] failed to push placeholder frame: ${runId}`, placeholderError);
      }
    }

    const failureRate = this.stats.totalAttempts > 0
      ? (this.stats.fallbackFrames / this.stats.totalAttempts) * 100
      : 0;

    if (this.stats.totalAttempts > 20 && failureRate > 90) {
      console.error(`[StreamService] failure rate ${failureRate.toFixed(1)}%, pausing stream: ${runId}`);
      this.pauseStreamTemporarily(runId, 10000);
    }
  }
".

(** ** The edit sequence (lines 7-134) *)

Definition ensure_field (text : str) : str :=
  insert_if_absent field_marker target (target ++ field_decl) text.

Definition ensure_init (text : str) : str :=
  insert_if_absent init_marker init_target init_new text.

(** Lines 7-23: the edits that cannot fail. *)
Definition prepare (text : str) : str :=
  let text := replace text import_fs [] in
  let text := replace text import_path [] in
  let text := ensure_field text in
  let text := ensure_init text in
  text.

Definition patch (text : str) : result str :=
  let text := prepare text in
  text ← locate_and_replace text start_signature "startStreamWithMcp" new_start;
  locate_and_replace text handle_signature "handleStreamFailure" new_handle.

(** ** The run: read, patch, write back *)

Inductive event :=
  | ReadText (path : string)
  | WriteText (path : string) (text : str).

(** The world the script runs in: the files, as the text [read_text] gives
    for them (decoded, newlines translated), and the file operations
    performed so far (latest first).  A file that is there is taken to be
    readable and valid UTF-8, and the target to be writable: runs that end
    in [UnicodeDecodeError] or another [OSError] are outside the model. *)
Record world := {
  files : gmap string (list N);
  trace : list event;
}.

Definition io (A : Type) : Type := world → world * result A.

#[global] Instance io_ret : MRet io := λ A a w, (w, Ok a).

#[global] Instance io_bind : MBind io :=
  λ A B k m w, match m w with
               | (w', Ok a) => k a w'
               | (w', Raise e) => (w', Raise e)
               end.

Definition lift {A} (r : result A) : io A := λ w, (w, r).

Definition read_text (p : string) : io str :=
  λ w, let w' := {| files := files w; trace := ReadText p :: trace w |} in
       match files w !! p with
       | Some text => (w', Ok text)
       | None => (w', Raise (FileNotFoundError p))
       end.

Definition write_text (p : string) (text : str) : io unit :=
  λ w, ({| files := <[p := text]> (files w);
           trace := WriteText p text :: trace w |}, Ok tt).

Definition path : string := "server/services/streamService.ts".

Definition main : io unit :=
  text ← read_text path;
  text ← lift (patch text);
  write_text path text.

(** ** Specification vocabulary *)

(** [sub] occurs in [s] at offset [i]. *)
Definition occurs_at (sub s : str) (i : nat) : Prop :=
  (i ≤ length s)%nat ∧ sub `prefix_of` drop i s.

(** [sub] occurs somewhere in [s]. *)
Definition occurs (sub s : str) : Prop := ∃ l r, s = l ++ sub ++ r.

(** What one character does to the counter. *)
Definition delta (c : char) : Z :=
  if (c =? open_brace)%N then 1 else if (c =? close_brace)%N then -1 else 0.

(** Net nesting depth of a piece of text: open braces minus close braces. *)
Fixpoint depth (w : str) : Z :=
  match w with
  | [] => 0
  | c :: w' => delta c + depth w'
  end.

Definition not_brace (c : char) : Prop := c ≠ open_brace ∧ c ≠ close_brace.

#[global] Instance not_brace_dec (c : char) : Decision (not_brace c).
Proof. unfold not_brace. apply _. Defined.

(** Text whose braces pair up, as a grammar: the close brace matching an
    open brace is the one that follows a balanced piece of text. *)
Inductive balanced : str → Prop :=
  | balanced_nil : balanced []
  | balanced_other c w : not_brace c → balanced w → balanced (c :: w)
  | balanced_block w1 w2 :
      balanced w1 → balanced w2 →
      balanced (open_brace :: w1 ++ close_brace :: w2).

(** Scanning [seg] with the counter starting at [d], the character at offset
    [k] is a close brace that brings the counter to zero. *)
Definition closes_at (seg : str) (d : Z) (k : nat) : Prop :=
  seg !! k = Some close_brace ∧ d + depth (take (S k) seg) = 0.

(** After [k] characters of [seg] the counter is back at zero, having been
    incremented at least once. *)
Definition back_at_zero (seg : str) (k : nat) : Prop :=
  (k ≤ length seg)%nat ∧ open_brace ∈ take k seg ∧ depth (take k seg) = 0.

(** The text from the signature offset on opens a block before it closes
    one: brace-free text, then an open brace. *)
Definition opens_first (seg : str) : Prop :=
  ∃ nb rest, seg = nb ++ open_brace :: rest ∧ Forall not_brace nb.

(** The text the scan runs over: the buffer from the signature offset on. *)
Definition scanned (B sig : str) : str := drop (Z.to_nat (find B sig)) B.

(** The character [c] is in [m] at most as its last character: a line, with
    or without its newline. *)
Definition only_last (c : char) (m : str) : Prop :=
  ∀ m1 m2, m = m1 ++ c :: m2 → m2 = [].

(** The two exit messages of the locator. *)
Definition SignatureNotFound (name : string) : exn :=
  SystemExit (name +:+ " not found").

Definition UnbalancedBlock (name : string) : exn :=
  SystemExit ("Unable to locate end of " +:+ name).

(** ** Fixtures *)

(** The end-to-end scenario of the specification. *)
Definition foo_buffer : str := chars "fn foo() { if (x) { y(); } }".
Definition foo_signature : str := chars "fn foo() {".
Definition foo_replacement : str := chars "fn foo() { return 1; }".

(** A small class with the two methods the script rewrites. *)
Definition service_fixture : str :=
  chars "class StreamService {
" ++ start_signature ++ chars "
    this.old(runId);
  }
" ++ handle_signature ++ chars "
    if (rawError) { this.stop(runId); }
  }
}
".

(** The fixture after one run. *)
Definition service_patched : str :=
  chars "class StreamService {
" ++ new_start ++ chars "
" ++ new_handle ++ chars "
}
".

(** * Properties *)

(** ** The string operations on small inputs *)

Example find_second : find (chars "abcabc") (chars "bc") = 1.
Proof. reflexivity. Qed.

Example find_missing : find (chars "abc") (chars "x") = -1.
Proof. reflexivity. Qed.

Example find_empty : find (chars "abc") [] = 0 ∧ find [] [] = 0.
Proof. split; reflexivity. Qed.

Example replace_no_overlap :
  replace (chars "aaa") (chars "aa") (chars "b") = chars "ba".
Proof. reflexivity. Qed.

Example replace_every : replace (chars "a.b.c") (chars ".") (chars "::") = chars "a::b::c".
Proof. reflexivity. Qed.

Example replace_empty_old : replace (chars "abc") [] (chars "-") = chars "-a-b-c-".
Proof. reflexivity. Qed.

Example slice_clamped :
  slice_from (chars "abc") 5 = [] ∧ slice_to (chars "abc") (-1) = chars "ab".
Proof. split; reflexivity. Qed.

Example scan_nested : scan (chars "f{a{b}c}d}") 0 = Some 7.
Proof. reflexivity. Qed.

Example scan_open_ended : scan (chars "f{a{b}c") 0 = None.
Proof. reflexivity. Qed.

(** ** Substring search *)

Lemma startswith_prefix (p s : str) :
  startswith p s = true ↔ p `prefix_of` s.
Proof.
  revert s. induction p as [|a p IH]; intros [|b s]; simpl.
  - split; [intros _; apply prefix_nil | done].
  - split; [intros _; apply prefix_nil | done].
  - split; [done | intros H%prefix_nil_inv; done].
  - rewrite andb_true_iff, N.eqb_eq, IH. split.
    + intros [-> H]. by apply prefix_cons.
    + intros H. split; [by eapply prefix_cons_inv_1 | by eapply prefix_cons_inv_2].
Qed.

Lemma startswith_app (p k : str) : startswith p (p ++ k) = true.
Proof. apply startswith_prefix. by exists k. Qed.

Lemma occurs_at_0 (sub s : str) : occurs_at sub s 0 ↔ startswith sub s = true.
Proof.
  unfold occurs_at. rewrite startswith_prefix. simpl. split; [by intros [_ ?]|].
  intros ?. split; [lia | done].
Qed.

Lemma occurs_at_S (sub s : str) (c : char) (i : nat) :
  occurs_at sub (c :: s) (S i) ↔ occurs_at sub s i.
Proof. unfold occurs_at. simpl. split; intros [? ?]; (split; [lia | done]). Qed.

Lemma occurs_at_nil (sub : str) (i : nat) :
  occurs_at sub [] i → i = 0%nat.
Proof. intros [H _]. simpl in H. lia. Qed.

Lemma occurs_at_split (sub s : str) (i : nat) :
  occurs_at sub s i ↔ ∃ l r, s = l ++ sub ++ r ∧ length l = i.
Proof.
  split.
  - intros [Hi [r Hr]]. exists (take i s), r. split.
    + by rewrite <- Hr, take_drop.
    + rewrite length_take. lia.
  - intros (l & r & -> & <-). split.
    + rewrite length_app. lia.
    + rewrite drop_app_length. by exists r.
Qed.

Lemma occurs_iff (sub s : str) : occurs sub s ↔ ∃ i, occurs_at sub s i.
Proof.
  split.
  - intros (l & r & ->). exists (length l). apply occurs_at_split. eauto.
  - intros [i (l & r & -> & _)%occurs_at_split]. by exists l, r.
Qed.

Lemma contains_occurs (s sub : str) :
  contains s sub = true ↔ occurs sub s.
Proof.
  rewrite occurs_iff. induction s as [|c s IH]; simpl.
  - rewrite orb_false_r, <- occurs_at_0. split; [eauto|].
    intros [i H]. by rewrite (occurs_at_nil _ _ H) in H.
  - rewrite orb_true_iff, IH, <- occurs_at_0. split.
    + intros [H | [i H]]; [eauto|]. exists (S i). by apply occurs_at_S.
    + intros [[|i] H]; [by left|]. right. exists i. by apply occurs_at_S in H.
Qed.

Lemma contains_false (s sub : str) :
  contains s sub = false ↔ ¬ occurs sub s.
Proof. rewrite <- contains_occurs. by destruct (contains s sub). Qed.

(** [find_from] returns [-1] or an offset from [i] on. *)
Lemma find_from_range (s sub : str) (i : Z) :
  find_from s sub i = -1 ∨ i ≤ find_from s sub i ≤ i + Z.of_nat (length s).
Proof.
  revert i. induction s as [|c s IH]; intros i; simpl.
  - destruct (startswith sub []); [right; lia | by left].
  - destruct (startswith sub (c :: s)); [right; lia|].
    destruct (IH (i + 1)) as [->|?]; [by left | right; lia].
Qed.

(** A found offset is the first occurrence. *)
Lemma find_from_first (s sub : str) (i : Z) (k : nat) :
  0 ≤ i →
  find_from s sub i = i + Z.of_nat k ↔
  occurs_at sub s k ∧ ∀ j, (j < k)%nat → ¬ occurs_at sub s j.
Proof.
  intros Hi. revert i k Hi. induction s as [|c s IH]; intros i k Hi; simpl.
  - destruct (startswith sub []) eqn:E.
    + split.
      * intros ?. assert (k = 0%nat) as -> by lia.
        split; [by apply occurs_at_0 | lia].
      * intros [->%occurs_at_nil _]. lia.
    + split; [lia|]. intros [H _]. pose proof (occurs_at_nil _ _ H) as ->.
      apply occurs_at_0 in H. congruence.
  - destruct (startswith sub (c :: s)) eqn:E.
    + split.
      * intros ?. assert (k = 0%nat) as -> by lia.
        split; [by apply occurs_at_0 | lia].
      * intros [_ H]. destruct k as [|k]; [lia|].
        destruct (H 0%nat); [lia | by apply occurs_at_0].
    + destruct k as [|k].
      * split.
        -- intros H. destruct (find_from_range s sub (i + 1)); lia.
        -- intros [H%occurs_at_0 _]. congruence.
      * replace (i + Z.of_nat (S k)) with ((i + 1) + Z.of_nat k) by lia.
        rewrite IH by lia. rewrite occurs_at_S. split.
        -- intros [? H]. split; [done|]. intros [|j] ?.
           ++ rewrite occurs_at_0. congruence.
           ++ rewrite occurs_at_S. apply H. lia.
        -- intros [? H]. split; [done|]. intros j ?.
           rewrite <- (occurs_at_S _ _ c). apply H. lia.
Qed.

Lemma find_first (s sub : str) (k : nat) :
  find s sub = Z.of_nat k ↔
  occurs_at sub s k ∧ ∀ j, (j < k)%nat → ¬ occurs_at sub s j.
Proof. unfold find. rewrite <- (find_from_first s sub 0 k) by lia. by rewrite Z.add_0_l. Qed.

Lemma find_from_absent (s sub : str) (i : Z) :
  0 ≤ i → find_from s sub i = -1 ↔ contains s sub = false.
Proof.
  revert i. induction s as [|c s IH]; intros i Hi; simpl.
  - destruct (startswith sub []); simpl; split; (lia || done).
  - destruct (startswith sub (c :: s)); simpl; [split; (lia || done)|].
    apply IH. lia.
Qed.

Lemma find_absent (s sub : str) : find s sub = -1 ↔ ¬ occurs sub s.
Proof. unfold find. rewrite find_from_absent by lia. apply contains_false. Qed.

Lemma find_range (s sub : str) :
  find s sub = -1 ∨ 0 ≤ find s sub ≤ Z.of_nat (length s).
Proof. unfold find. destruct (find_from_range s sub 0); [by left | right; lia]. Qed.

(** ** The brace-depth scan *)

Lemma depth_cons (c : char) (w : str) : depth (c :: w) = delta c + depth w.
Proof. done. Qed.

Lemma depth_app (w1 w2 : str) : depth (w1 ++ w2) = depth w1 + depth w2.
Proof.
  induction w1 as [|c w1 IH]; [done|].
  simpl app. rewrite !depth_cons, IH. lia.
Qed.

Lemma delta_open : delta open_brace = 1.
Proof. done. Qed.

Lemma delta_close : delta close_brace = -1.
Proof. done. Qed.

Lemma delta_other (c : char) : not_brace c → delta c = 0.
Proof.
  intros [Ho Hc]. unfold delta.
  destruct (N.eqb_spec c open_brace); [done|].
  by destruct (N.eqb_spec c close_brace).
Qed.

Lemma delta_neg (c : char) : delta c = -1 ↔ c = close_brace.
Proof.
  unfold delta. destruct (N.eqb_spec c open_brace) as [->|?]; [done|].
  destruct (N.eqb_spec c close_brace); split; (done || lia).
Qed.

(** One iteration of the loop. *)
Lemma scan_from_step (c : char) (rest : str) (i d : Z) :
  scan_from (c :: rest) i d =
  if decide (c = close_brace ∧ d = 1) then Some i
  else scan_from rest (i + 1) (d + delta c).
Proof.
  simpl. unfold delta.
  destruct (N.eqb_spec c open_brace) as [->|Ho].
  { rewrite decide_False; [done | by intros [? _]]. }
  destruct (N.eqb_spec c close_brace) as [->|Hc].
  - destruct (Z.eqb_spec (d - 1) 0).
    + rewrite decide_True; [done | split; [done | lia]].
    + rewrite decide_False; [done | intros [_ ?]; lia].
  - rewrite decide_False; [by rewrite Z.add_0_r | by intros [? _]].
Qed.

Lemma closes_at_0 (c : char) (rest : str) (d : Z) :
  closes_at (c :: rest) d 0 ↔ c = close_brace ∧ d = 1.
Proof.
  unfold closes_at. simpl take. rewrite depth_cons. simpl.
  split.
  - intros [[= ->] H]. rewrite delta_close in H. split; [done | lia].
  - intros [-> ->]. by rewrite delta_close.
Qed.

Lemma closes_at_S (c : char) (rest : str) (d : Z) (k : nat) :
  closes_at (c :: rest) d (S k) ↔ closes_at rest (d + delta c) k.
Proof.
  unfold closes_at. simpl lookup. rewrite firstn_cons, depth_cons.
  by rewrite Z.add_assoc.
Qed.

Lemma closes_at_lt (seg : str) (d : Z) (k : nat) :
  closes_at seg d k → (k < length seg)%nat.
Proof. intros [H _]. by eapply lookup_lt_Some. Qed.

(** Whatever the loop returns is an offset inside the scanned text. *)
Lemma scan_from_Some (rest : str) (i d e : Z) :
  scan_from rest i d = Some e →
  ∃ k : nat, e = i + Z.of_nat k ∧ (k < length rest)%nat.
Proof.
  revert i d. induction rest as [|c rest IH]; intros i d; [done|].
  rewrite scan_from_step. destruct (decide _).
  - intros [= ->]. exists 0%nat. simpl. split; lia.
  - intros (k & -> & ?)%IH. exists (S k). simpl. split; lia.
Qed.

(** The loop stops at the first close brace that brings the counter to
    zero. *)
Lemma scan_from_first (rest : str) (i d : Z) (k : nat) :
  scan_from rest i d = Some (i + Z.of_nat k) ↔
  closes_at rest d k ∧ ∀ j, (j < k)%nat → ¬ closes_at rest d j.
Proof.
  revert i d k. induction rest as [|c rest IH]; intros i d k.
  { simpl. split; [done|]. intros [H%closes_at_lt _]. simpl in H. lia. }
  rewrite scan_from_step. destruct (decide _) as [Hc|Hc].
  - split.
    + intros [= ?]. assert (k = 0%nat) as -> by lia.
      split; [by apply closes_at_0 | lia].
    + intros [_ H]. destruct k as [|k]; [do 2 f_equal; lia|].
      destruct (H 0%nat); [lia | by apply closes_at_0].
  - destruct k as [|k].
    + split.
      * intros (j & ? & _)%scan_from_Some. lia.
      * intros [H%closes_at_0 _]. done.
    + replace (i + Z.of_nat (S k)) with ((i + 1) + Z.of_nat k) by lia.
      rewrite IH, closes_at_S. split.
      * intros [? H]. split; [done|]. intros [|j] ?.
        -- by rewrite closes_at_0.
        -- rewrite closes_at_S. apply H. lia.
      * intros [? H]. split; [done|]. intros j ?.
        rewrite <- closes_at_S. apply H. lia.
Qed.

(** The loop runs off the end exactly when no close brace brings the counter
    to zero. *)
Lemma scan_from_None (rest : str) (i d : Z) :
  scan_from rest i d = None ↔ ∀ k, ¬ closes_at rest d k.
Proof.
  revert i d. induction rest as [|c rest IH]; intros i d.
  { simpl. split; [|done]. intros _ k H%closes_at_lt. simpl in H. lia. }
  rewrite scan_from_step. destruct (decide _) as [Hc|Hc].
  - split; [done|]. intros H. destruct (H 0%nat). by apply closes_at_0.
  - rewrite IH. split.
    + intros H [|k]; [by rewrite closes_at_0 | rewrite closes_at_S; apply H].
    + intros H k. rewrite <- closes_at_S. apply H.
Qed.

(** ** Balanced text *)

Lemma not_brace_open : ¬ not_brace open_brace.
Proof. by intros [? _]. Qed.

Lemma scan_from_other (c : char) (rest : str) (i d : Z) :
  not_brace c → scan_from (c :: rest) i d = scan_from rest (i + 1) d.
Proof.
  intros Hc. rewrite scan_from_step, delta_other, Z.add_0_r by done.
  rewrite decide_False; [done|]. intros [-> _]. by destruct Hc.
Qed.

Lemma scan_from_open (rest : str) (i d : Z) :
  scan_from (open_brace :: rest) i d = scan_from rest (i + 1) (d + 1).
Proof. done. Qed.

Lemma scan_from_close (rest : str) (i d : Z) :
  scan_from (close_brace :: rest) i d =
  if decide (d = 1) then Some i else scan_from rest (i + 1) (d - 1).
Proof.
  rewrite scan_from_step, delta_close.
  destruct (decide (d = 1)); [by rewrite decide_True|].
  rewrite decide_False; [done | by intros [_ ?]].
Qed.

(** The scan walks over brace-free text without touching the counter. *)
Lemma scan_from_no_brace (nb rest : str) (i d : Z) :
  Forall not_brace nb →
  scan_from (nb ++ rest) i d = scan_from rest (i + Z.of_nat (length nb)) d.
Proof.
  intros H. revert i. induction H as [|c nb Hc _ IH]; intros i.
  - simpl. by rewrite Z.add_0_r.
  - simpl app. rewrite scan_from_other, IH by done. f_equal. simpl length. lia.
Qed.

(** Inside a block (counter at least one) the scan walks over balanced text
    and leaves the counter as it found it. *)
Lemma scan_from_balanced (w rest : str) (i d : Z) :
  balanced w → 1 ≤ d →
  scan_from (w ++ rest) i d = scan_from rest (i + Z.of_nat (length w)) d.
Proof.
  intros H. revert rest i d.
  induction H as [|c w Hc _ IH|w1 w2 _ IH1 _ IH2]; intros rest i d Hd.
  - simpl. by rewrite Z.add_0_r.
  - simpl app. rewrite scan_from_other, IH by done. f_equal. simpl length. lia.
  - simpl app. rewrite scan_from_open, <- app_assoc, IH1 by lia.
    simpl app. rewrite scan_from_close, decide_False by lia.
    replace (d + 1 - 1) with d by lia. rewrite IH2 by done.
    f_equal. simpl length. rewrite length_app. simpl length. lia.
Qed.

Lemma depth_no_brace (nb : str) : Forall not_brace nb → depth nb = 0.
Proof.
  induction 1 as [|c nb Hc _ IH]; [done|].
  by rewrite depth_cons, delta_other, IH.
Qed.

Lemma open_not_in_no_brace (nb : str) :
  Forall not_brace nb → open_brace ∉ nb.
Proof. intros H Hin. by apply (proj1 (Forall_forall _ _) H), not_brace_open in Hin. Qed.

Lemma balanced_depth (w : str) : balanced w → depth w = 0.
Proof.
  induction 1 as [|c w Hc _ IH|w1 w2 _ IH1 _ IH2]; [done|..].
  - by rewrite depth_cons, delta_other, IH.
  - rewrite depth_cons, depth_app, depth_cons, delta_open, delta_close. lia.
Qed.

(** The counter never goes below its starting value inside balanced text. *)
Lemma balanced_prefix_depth (w : str) (k : nat) :
  balanced w → 0 ≤ depth (take k w).
Proof.
  intros H. revert k.
  induction H as [|c w Hc _ IH|w1 w2 H1 IH1 _ IH2]; intros k.
  - by rewrite take_nil.
  - destruct k as [|k]; [done|].
    rewrite firstn_cons, depth_cons, delta_other by done. specialize (IH k). lia.
  - destruct k as [|k]; [done|].
    rewrite firstn_cons, depth_cons, delta_open, take_app, depth_app.
    destruct (decide (k ≤ length w1)%nat) as [Hk|Hk].
    + replace (k - length w1)%nat with 0%nat by lia.
      specialize (IH1 k). simpl. lia.
    + rewrite take_ge by lia. rewrite (balanced_depth w1) by done.
      destruct (k - length w1)%nat as [|m] eqn:E; [lia|].
      rewrite firstn_cons, depth_cons, delta_close. specialize (IH2 m). lia.
Qed.

Lemma balanced_no_brace (w : str) : Forall not_brace w → balanced w.
Proof. induction 1; by constructor. Qed.

(** Decides that a given text has no brace in it, and that such a text is
    balanced. *)
Ltac brace_free := by eapply bool_decide_eq_true_1.
Ltac balanced_leaf := apply balanced_no_brace; brace_free.

Lemma balanced_app (w1 w2 : str) :
  balanced w1 → balanced w2 → balanced (w1 ++ w2).
Proof.
  intros H1 H2. induction H1 as [|c w Hc _ IH|u1 u2 Hu1 _ _ IH2]; [done|..].
  - simpl. by constructor.
  - simpl. rewrite <- app_assoc. simpl. by constructor.
Qed.

(** ** C1: the locator finds the matching close brace *)

(** The span of a balanced block. *)
Lemma locate_balanced_span (B sig pre nb body post : str) (name : string) :
  find B sig = Z.of_nat (length pre) →
  B = pre ++ nb ++ open_brace :: body ++ close_brace :: post →
  Forall not_brace nb →
  balanced body →
  locate B sig name =
    Ok {| start_index := Z.of_nat (length pre);
          end_index := Z.of_nat (length pre + length nb + 1 + length body) |}.
Proof.
  intros Hfind -> Hnb Hbody.
  unfold locate. rewrite Hfind.
  destruct (Z.eqb_spec (Z.of_nat (length pre)) (-1)) as [?|_]; [lia|].
  unfold scan. rewrite Nat2Z.id, drop_app_length.
  rewrite scan_from_no_brace, scan_from_open by done.
  rewrite (scan_from_balanced body) by (done || lia).
  rewrite scan_from_close, decide_True by done.
  do 3 f_equal. lia.
Qed.

(** C1.  Let the signature [sig] be found in the buffer [B] at the offset
    where [pre] ends, and let the text from there on be brace-free text
    [nb], the block's open brace, a balanced [body], the close brace and
    whatever follows.  Then [locate] returns the span from the signature
    offset to that close brace; that offset holds a close brace; and it is
    the first point of the scan at which the depth counter is back at zero
    after having been incremented, however deep [body] nests. *)
Theorem locate_matching_close (B sig pre nb body post : str) (name : string) :
  find B sig = Z.of_nat (length pre) →
  B = pre ++ nb ++ open_brace :: body ++ close_brace :: post →
  Forall not_brace nb →
  balanced body →
  locate B sig name =
    Ok {| start_index := Z.of_nat (length pre);
          end_index := Z.of_nat (length pre + length nb + 1 + length body) |}
  ∧ B !! (length pre + length nb + 1 + length body)%nat = Some close_brace
  ∧ back_at_zero (drop (length pre) B) (length nb + 1 + length body + 1)
  ∧ ∀ k, (k < length nb + 1 + length body + 1)%nat →
         ¬ back_at_zero (drop (length pre) B) k.
Proof.
  intros Hfind HB Hnb Hbody.
  split; [by eapply locate_balanced_span|].
  subst B. rewrite drop_app_length. repeat split.
  - rewrite lookup_app_r by lia.
    rewrite lookup_app_r by lia.
    replace (length pre + length nb + 1 + length body - length pre - length nb)%nat
      with (S (length body)) by lia.
    simpl. rewrite lookup_app_r by lia.
    by replace (length body - length body)%nat with 0%nat by lia.
  - rewrite length_app. simpl. rewrite length_app. simpl. lia.
  - rewrite take_app_ge by lia.
    replace (length nb + 1 + length body + 1 - length nb)%nat
      with (S (length body + 1)) by lia.
    rewrite firstn_cons. set_solver.
  - rewrite take_app_ge by lia.
    replace (length nb + 1 + length body + 1 - length nb)%nat
      with (S (length body + 1)) by lia.
    rewrite firstn_cons, take_app_ge by lia.
    replace (length body + 1 - length body)%nat with 1%nat by lia.
    simpl take. rewrite depth_app, depth_cons, depth_app, delta_open.
    rewrite (depth_no_brace nb), (balanced_depth body) by done. done.
  - intros k Hk (_ & Hopen & Hdepth).
    destruct (decide (k ≤ length nb)%nat) as [Hle|Hgt].
    + rewrite take_app_le in Hopen by done.
      apply (open_not_in_no_brace nb Hnb). by eapply subseteq_take.
    + rewrite take_app_ge in Hdepth by lia.
      destruct (k - length nb)%nat as [|m] eqn:E; [lia|].
      rewrite firstn_cons, depth_app, depth_cons, delta_open in Hdepth.
      rewrite (depth_no_brace nb) in Hdepth by done.
      rewrite take_app_le in Hdepth by lia.
      pose proof (balanced_prefix_depth body m Hbody). lia.
Qed.

(** A fixture nested three deep: the block of [f] holds a block that holds a
    block. *)
Lemma locate_matching_close_depth3 :
  locate (chars "x f() { a { b { c } d } e } g }") (chars "f() {") "f"
  = Ok {| start_index := 2; end_index := 26 |}
  ∧ chars "x f() { a { b { c } d } e } g }" !! 26%nat = Some close_brace.
Proof.
  pose proof (locate_matching_close
    (chars "x f() { a { b { c } d } e } g }") (chars "f() {")
    (chars "x ") (chars "f() ")
    (chars " a " ++ open_brace ::
       (chars " b " ++ open_brace :: chars " c " ++ close_brace :: chars " d ")
       ++ close_brace :: chars " e ")
    (chars " g }") "f" eq_refl eq_refl) as H.
  destruct H as (H1 & H2 & _).
  - brace_free.
  - apply balanced_app; [balanced_leaf|].
    apply balanced_block; [|balanced_leaf].
    apply balanced_app; [balanced_leaf|].
    apply balanced_block; balanced_leaf.
  - split; [exact H1 | exact H2].
Defined.

(** ** C2: the block replacer *)

Lemma slice_to_take (s : str) (j : Z) :
  0 ≤ j ≤ Z.of_nat (length s) → slice_to s j = take (Z.to_nat j) s.
Proof.
  intros Hj. unfold slice_to, slice_bound.
  destruct (Z.ltb_spec j 0); [lia|]. by rewrite Z.min_l by lia.
Qed.

Lemma slice_from_drop (s : str) (i : Z) :
  0 ≤ i → slice_from s i = drop (Z.to_nat i) s.
Proof.
  intros Hi. unfold slice_from, slice_bound.
  destruct (Z.ltb_spec i 0); [lia|].
  destruct (Z.le_ge_cases i (Z.of_nat (length s))).
  - by rewrite Z.min_l by lia.
  - rewrite Z.min_r, Nat2Z.id by lia. by rewrite !drop_ge by lia.
Qed.

Lemma replace_block_take_drop (B R : str) (sp : Span) :
  0 ≤ start_index sp ≤ end_index sp →
  end_index sp ≤ Z.of_nat (length B) →
  replace_block B sp R =
    take (Z.to_nat (start_index sp)) B ++ R ++ drop (Z.to_nat (end_index sp) + 1) B.
Proof.
  intros Hs He. unfold replace_block.
  rewrite slice_to_take, slice_from_drop by lia. do 3 f_equal. lia.
Qed.

(** C2.  For a span with [0 <= start <= end <= length], the replacer returns
    the text before [start], then the replacement, then the text after
    [end]; the replacement sits in the result verbatim at offset [start],
    whatever characters (braces included) it is made of, and the length of
    the result is accounted for by these three pieces. *)
Theorem replace_block_exact (B R : str) (sp : Span) :
  0 ≤ start_index sp ≤ end_index sp →
  end_index sp ≤ Z.of_nat (length B) →
  replace_block B sp R =
    take (Z.to_nat (start_index sp)) B ++ R ++ drop (Z.to_nat (end_index sp) + 1) B
  ∧ take (length R) (drop (Z.to_nat (start_index sp)) (replace_block B sp R)) = R
  ∧ length (replace_block B sp R) =
      (Z.to_nat (start_index sp) + length R
       + (length B - (Z.to_nat (end_index sp) + 1)))%nat.
Proof.
  intros Hs He.
  rewrite replace_block_take_drop by done.
  repeat split.
  - rewrite drop_app_length'; [by rewrite take_app_length|].
    rewrite length_take. lia.
  - rewrite !length_app, length_take, length_drop. lia.
Qed.

(** A replacement made of braces goes in as it is. *)
Lemma replace_block_exact_braces :
  replace_block (chars "ab{c}de") {| start_index := 2; end_index := 4 |} (chars "{{}")
  = chars "ab{{}de".
Proof.
  destruct (replace_block_exact (chars "ab{c}de") (chars "{{}")
              {| start_index := 2; end_index := 4 |}) as (H & _ & _).
  - simpl. lia.
  - simpl. lia.
  - exact H.
Defined.

(** ** The three ways out of the locator *)

Lemma locate_cases (B sig : str) (name : string) :
  (find B sig = -1 ∧ locate B sig name = Raise (SignatureNotFound name))
  ∨ ∃ i : nat,
      find B sig = Z.of_nat i ∧ (i ≤ length B)%nat ∧
      ((scan_from (drop i B) (Z.of_nat i) 0 = None
        ∧ locate B sig name = Raise (UnbalancedBlock name))
       ∨ ∃ k : nat,
           scan_from (drop i B) (Z.of_nat i) 0 = Some (Z.of_nat i + Z.of_nat k)
           ∧ (k < length (drop i B))%nat
           ∧ locate B sig name =
               Ok {| start_index := Z.of_nat i;
                     end_index := Z.of_nat i + Z.of_nat k |}).
Proof.
  unfold locate, scan.
  destruct (find_range B sig) as [E|Hr].
  { left. by rewrite E. }
  right. exists (Z.to_nat (find B sig)).
  rewrite Z2Nat.id by lia. split; [done|]. split; [lia|].
  destruct (Z.eqb_spec (find B sig) (-1)); [lia|].
  destruct (scan_from _ _ _) as [e|] eqn:Es.
  - right. destruct (scan_from_Some _ _ _ _ Es) as (k & -> & Hk). by exists k.
  - by left.
Qed.

Lemma string_app_length (s1 s2 : string) :
  String.length (s1 +:+ s2) = (String.length s1 + String.length s2)%nat.
Proof. induction s1 as [|a s1 IH]; simpl; [done | by rewrite IH]. Qed.

Lemma exit_messages_differ (name : string) :
  SignatureNotFound name ≠ UnbalancedBlock name.
Proof.
  unfold SignatureNotFound, UnbalancedBlock. intros [= H].
  apply (f_equal String.length) in H.
  rewrite !string_app_length in H. simpl in H. lia.
Qed.

(** ** C9: a span returned by the locator is safe to splice at *)

(** C9.  Whenever the locator succeeds, the span lies inside the buffer,
    [0 <= start <= end < length], the character at [end] is the close brace,
    and the splice [buffer[:start] + R + buffer[end+1:]] cuts the buffer at
    these two offsets: no bound is clamped. *)
Theorem locate_span_valid (B sig R : str) (name : string) (sp : Span) :
  locate B sig name = Ok sp →
  0 ≤ start_index sp ≤ end_index sp
  ∧ end_index sp < Z.of_nat (length B)
  ∧ B !! Z.to_nat (end_index sp) = Some close_brace
  ∧ replace_block B sp R =
      take (Z.to_nat (start_index sp)) B ++ R
      ++ drop (Z.to_nat (end_index sp) + 1) B.
Proof.
  intros Hloc.
  destruct (locate_cases B sig name) as [[_ H]|(i & Hi & Hle & [[_ H]|(k & Hs & Hk & H)])];
    rewrite H in Hloc; try done.
  injection Hloc as <-. simpl. rewrite length_drop in Hk.
  assert (B !! (i + k)%nat = Some close_brace) as Hclose.
  { apply scan_from_first in Hs as [[Hl _] _]. by rewrite lookup_drop in Hl. }
  repeat split; try lia.
  - by replace (Z.to_nat (Z.of_nat i + Z.of_nat k)) with (i + k)%nat by lia.
  - apply replace_block_take_drop; simpl; lia.
Qed.

(** The span of the end-to-end fixture: offsets 0 and 27 of 28 characters. *)
Lemma locate_span_valid_foo :
  0 ≤ 0 ≤ 27 ∧ 27 < 28
  ∧ chars "fn foo() { if (x) { y(); } }" !! 27%nat = Some close_brace
  ∧ replace_block (chars "fn foo() { if (x) { y(); } }")
      {| start_index := 0; end_index := 27 |} (chars "R") = chars "R".
Proof.
  exact (locate_span_valid (chars "fn foo() { if (x) { y(); } }")
           (chars "fn foo() {") (chars "R") "foo"
           {| start_index := 0; end_index := 27 |} eq_refl).
Defined.

(** ** C5: the first occurrence *)

(** C5.  When the signature occurs in the buffer, once or several times,
    the locator takes the first occurrence as the start of the block:
    [find] returns an offset at which the signature occurs and before which
    it does not; the locator does not answer "not found", it scans from that
    offset, and what it answers is decided by that scan alone - the span
    from the first occurrence to where the scan stops, or "Unable to locate
    end of ..." when the scan runs off the end; so any span it returns
    starts at the first occurrence. *)
Theorem locate_first_occurrence (B sig : str) (name : string) :
  occurs sig B →
  ∃ i : nat,
    find B sig = Z.of_nat i
    ∧ occurs_at sig B i
    ∧ (∀ j, occurs_at sig B j → (i ≤ j)%nat)
    ∧ locate B sig name =
        match scan B (Z.of_nat i) with
        | Some e => Ok {| start_index := Z.of_nat i; end_index := e |}
        | None => Raise (UnbalancedBlock name)
        end
    ∧ locate B sig name ≠ Raise (SignatureNotFound name)
    ∧ ∀ sp, locate B sig name = Ok sp → start_index sp = Z.of_nat i.
Proof.
  intros Hocc.
  destruct (find_range B sig) as [E|Hr]; [by apply find_absent in E|].
  exists (Z.to_nat (find B sig)). rewrite Z2Nat.id by lia.
  assert (find B sig = Z.of_nat (Z.to_nat (find B sig))) as Hi by lia.
  apply find_first in Hi as [Hat Hmin].
  assert (locate B sig name =
          match scan B (find B sig) with
          | Some e => Ok {| start_index := find B sig; end_index := e |}
          | None => Raise (UnbalancedBlock name)
          end) as Hloc.
  { unfold locate. destruct (Z.eqb_spec (find B sig) (-1)); [lia|].
    by destruct (scan B (find B sig)). }
  split; [done|]. split; [done|]. split; [|split; [done|split]].
  - intros j Hj. destruct (decide (Z.to_nat (find B sig) ≤ j)%nat); [done|].
    destruct (Hmin j); [lia | done].
  - rewrite Hloc. destruct (scan B (find B sig)); [done|].
    intros E. destruct (exit_messages_differ name). congruence.
  - intros sp. rewrite Hloc. destruct (scan B (find B sig)); [|done].
    by intros [= <-].
Qed.

(** Two blocks with the same signature: the first one is taken, whole. *)
Lemma locate_first_occurrence_twice :
  find (chars "f{a} f{b}") (chars "f{") = 0
  ∧ locate (chars "f{a} f{b}") (chars "f{") "f"
    = Ok {| start_index := 0; end_index := 3 |}.
Proof.
  destruct (locate_first_occurrence (chars "f{a} f{b}") (chars "f{") "f")
    as (i & Hfind & _ & _ & Hloc & _).
  - by exists [], (chars "a} f{b}").
  - assert (find (chars "f{a} f{b}") (chars "f{") = 0) as E by reflexivity.
    assert (i = 0%nat) as -> by lia.
    split; [exact E | exact Hloc].
Defined.

(** ** C3: when the locator fails *)

Lemma find_occurs (B sig : str) (i : nat) :
  find B sig = Z.of_nat i → occurs sig B.
Proof. intros [H _]%find_first. apply occurs_iff. by exists i. Qed.

(** [closes_at] past a prefix of the text. *)
Lemma closes_at_app (p w : str) (d : Z) (j : nat) :
  closes_at (p ++ w) d (length p + j) ↔ closes_at w (d + depth p) j.
Proof.
  revert d. induction p as [|c p IH]; intros d.
  - simpl. by rewrite Z.add_0_r.
  - simpl app. simpl length. simpl Nat.add.
    rewrite closes_at_S, IH, depth_cons. by rewrite Z.add_assoc.
Qed.

(** Inside a block, a counter that reaches zero does so first on a close
    brace. *)
Lemma first_zero_closes (w : str) (d : Z) (m : nat) :
  1 ≤ d → d + depth (take m w) ≤ 0 → ∃ j, (j < m)%nat ∧ closes_at w d j.
Proof.
  revert d m. induction w as [|c w IH]; intros d m Hd Hz.
  { rewrite take_nil in Hz. simpl in Hz. lia. }
  destruct m as [|m]; [simpl in Hz; lia|].
  rewrite firstn_cons, depth_cons in Hz.
  destruct (decide (c = close_brace ∧ d = 1)) as [Hc|Hc].
  { exists 0%nat. split; [lia | by apply closes_at_0]. }
  destruct (IH (d + delta c) m) as (j & Hj & Hcl); [|lia|].
  - destruct (decide (c = close_brace)) as [->|Hne].
    + rewrite delta_close. destruct (decide (d = 1)); [by destruct Hc | lia].
    + pose proof (delta_neg c). unfold delta in *.
      destruct (c =? open_brace)%N; [lia|].
      destruct (c =? close_brace)%N; [|lia]. tauto.
  - exists (S j). split; [lia | by apply closes_at_S].
Qed.

(** On such text the counter is back at zero, after an increment, exactly
    when some close brace brings it to zero. *)
Lemma opens_first_back_at_zero (seg : str) :
  opens_first seg →
  (∃ k, closes_at seg 0 k) ↔ (∃ k, back_at_zero seg k).
Proof.
  intros (nb & rest & -> & Hnb). split.
  - intros [k [Hl Hd]]. exists (S k). pose proof Hl as Hlt%lookup_lt_Some.
    split; [lia|]. split; [|done].
    destruct (decide (k < length nb)%nat) as [Hk|Hk].
    { rewrite lookup_app_l in Hl by done.
      apply list_elem_of_lookup_2 in Hl.
      by apply (proj1 (Forall_forall _ _) Hnb) in Hl as [_ ?]. }
    destruct (decide (k = length nb)) as [->|Hne].
    { by rewrite list_lookup_middle in Hl. }
    rewrite take_app_ge by lia.
    destruct (S k - length nb)%nat as [|m] eqn:E; [lia|].
    rewrite firstn_cons. set_solver.
  - intros [k (Hk & Hopen & Hd)].
    destruct (decide (k ≤ length nb)%nat) as [Hle|Hgt].
    { rewrite take_app_le in Hopen by done.
      destruct (open_not_in_no_brace nb Hnb). by eapply subseteq_take. }
    rewrite take_app_ge in Hd by lia.
    destruct (k - length nb)%nat as [|m] eqn:E; [lia|].
    rewrite firstn_cons, depth_app, depth_cons, delta_open in Hd.
    rewrite (depth_no_brace nb) in Hd by done.
    destruct (first_zero_closes rest 1 m) as (j & _ & Hcl); [lia | lia |].
    exists (length nb + S j)%nat. apply closes_at_app.
    rewrite depth_no_brace by done. by apply closes_at_S.
Qed.

(** The three outcomes of the locator in terms of the loop's own test, for
    any signature whatever: "... not found" exactly when the signature does
    not occur; "Unable to locate end of ..." exactly when it occurs and no
    close brace from the signature offset on brings the counter to zero; a
    span in the remaining case.  Where the scanned text opens a block before
    it closes one, a close brace bringing the counter to zero is the same as
    the counter being back at zero after an increment. *)
Lemma locate_outcome (B sig : str) (name : string) :
  (locate B sig name = Raise (SignatureNotFound name) ↔ ¬ occurs sig B)
  ∧ (locate B sig name = Raise (UnbalancedBlock name) ↔
       occurs sig B ∧ ∀ k, ¬ closes_at (scanned B sig) 0 k)
  ∧ ((∃ sp, locate B sig name = Ok sp) ↔
       occurs sig B ∧ ∃ k, closes_at (scanned B sig) 0 k)
  ∧ (opens_first (scanned B sig) →
       (∃ k, closes_at (scanned B sig) 0 k) ↔ (∃ k, back_at_zero (scanned B sig) k)).
Proof.
  unfold scanned.
  split; [|split; [|split]]; [| | |apply opens_first_back_at_zero].
  - destruct (locate_cases B sig name)
      as [[E H]|(i & Hi & _ & [[_ H]|(k & _ & _ & H)])]; rewrite H.
    + split; [intros _; by apply find_absent | done].
    + split.
      * intros E. destruct (exit_messages_differ name). congruence.
      * intros Hn. destruct Hn. by eapply find_occurs.
    + split; [done|]. intros Hn. destruct Hn. by eapply find_occurs.
  - destruct (locate_cases B sig name)
      as [[E H]|(i & Hi & _ & [[Hs H]|(k & Hs & _ & H)])]; rewrite H.
    + split.
      * intros E'. destruct (exit_messages_differ name). congruence.
      * intros [Ho _]. by apply find_absent in E.
    + rewrite Hi, Nat2Z.id. split; [|done]. intros _.
      split; [by eapply find_occurs | by eapply scan_from_None].
    + rewrite Hi, Nat2Z.id. split; [done|]. intros [_ Hn].
      apply scan_from_first in Hs as [Hc _]. by destruct (Hn k).
  - destruct (locate_cases B sig name)
      as [[E H]|(i & Hi & _ & [[Hs H]|(k & Hs & _ & H)])]; rewrite H.
    + split; [by intros [? ?]|]. intros [Ho _]. by apply find_absent in E.
    + rewrite Hi, Nat2Z.id. split; [by intros [? ?]|]. intros [_ [k Hk]].
      by destruct (proj1 (scan_from_None _ _ _) Hs k).
    + rewrite Hi, Nat2Z.id. split; [|eauto]. intros _.
      split; [by eapply find_occurs|].
      apply scan_from_first in Hs as [Hc _]. eauto.
Qed.

(** A signature that closes before it opens is outside that assumption (the
    script has none such): on the buffer [}{] with signature [}] the counter
    goes to -1 and is back at zero on the open brace, where the loop does
    not test it, and the loop runs off the end. *)
Lemma locate_unbalanced_though_back_at_zero :
  occurs (chars "}") (chars "}{")
  ∧ back_at_zero (scanned (chars "}{") (chars "}")) 2
  ∧ locate (chars "}{") (chars "}") "f" = Raise (UnbalancedBlock "f").
Proof.
  split; [by exists [], (chars "{")|]. split; [|done].
  split; [simpl; lia|]. split; [|done].
  change (open_brace ∈ [close_brace; open_brace]). set_solver.
Qed.

(** Where the signature opens a block, so does the text scanned from any of
    its occurrences. *)
Lemma opens_first_scanned (B sig : str) :
  opens_first sig → occurs sig B → opens_first (scanned B sig).
Proof.
  intros (nb & rest & -> & Hnb) Hocc. unfold scanned.
  destruct (find_range B (nb ++ open_brace :: rest)) as [E|Hr].
  { by apply find_absent in E. }
  assert (find B (nb ++ open_brace :: rest)
          = Z.of_nat (Z.to_nat (find B (nb ++ open_brace :: rest)))) as Hi by lia.
  apply find_first in Hi as [[_ [r Hr']] _]. rewrite Hr'.
  exists nb, (rest ++ r). split; [|done]. by rewrite <- app_assoc.
Qed.

(** C3.  For every buffer and every signature that opens a block (brace-free
    text, then an open brace: the assumption the locator is specified under,
    and the shape of both signatures of the script), the locator exits with
    "... not found" if and only if the signature does not occur in the
    buffer; it exits with "Unable to locate end of ..." if and only if the
    signature occurs and the scan from the signature offset reaches the end
    of the buffer without the depth counter being back at zero after an
    increment; it returns a span if and only if the signature occurs and the
    counter does get back to zero; and there is no fourth outcome. *)
Theorem locate_fails_exactly (B sig : str) (name : string) :
  opens_first sig →
  (locate B sig name = Raise (SignatureNotFound name) ↔ ¬ occurs sig B)
  ∧ (locate B sig name = Raise (UnbalancedBlock name) ↔
       occurs sig B ∧ ∀ k, ¬ back_at_zero (scanned B sig) k)
  ∧ ((∃ sp, locate B sig name = Ok sp) ↔
       occurs sig B ∧ ∃ k, back_at_zero (scanned B sig) k)
  ∧ (locate B sig name = Raise (SignatureNotFound name)
     ∨ locate B sig name = Raise (UnbalancedBlock name)
     ∨ ∃ sp, locate B sig name = Ok sp).
Proof.
  intros Hsig.
  destruct (locate_outcome B sig name) as (Hnf & Hub & Hok & Hsame).
  assert (occurs sig B →
          (∃ k, closes_at (scanned B sig) 0 k) ↔ (∃ k, back_at_zero (scanned B sig) k))
    as Heq.
  { intros Hocc. by apply Hsame, opens_first_scanned. }
  split; [done|]. split; [|split].
  - rewrite Hub. split.
    + intros [Hocc Hno]. split; [done|]. intros k Hk.
      destruct (proj2 (Heq Hocc) (ex_intro _ k Hk)) as [k' Hk']. by apply (Hno k').
    + intros [Hocc Hno]. split; [done|]. intros k Hk.
      destruct (proj1 (Heq Hocc) (ex_intro _ k Hk)) as [k' Hk']. by apply (Hno k').
  - rewrite Hok. split; intros [Hocc Hk]; (split; [done|]); by apply (Heq Hocc).
  - destruct (locate_cases B sig name)
      as [[_ H]|(i & _ & _ & [[_ H]|(k & _ & _ & H)])]; rewrite H; eauto.
Qed.

(** The signature of [startStreamWithMcp] opens a block: the theorem at the
    small class. *)
Lemma locate_fails_exactly_start :
  (locate service_fixture start_signature "startStreamWithMcp"
     = Raise (SignatureNotFound "startStreamWithMcp")
   ↔ ¬ occurs start_signature service_fixture)
  ∧ (locate service_fixture start_signature "startStreamWithMcp"
       = Raise (UnbalancedBlock "startStreamWithMcp")
     ↔ occurs start_signature service_fixture
       ∧ ∀ k, ¬ back_at_zero (scanned service_fixture start_signature) k)
  ∧ ((∃ sp, locate service_fixture start_signature "startStreamWithMcp" = Ok sp)
     ↔ occurs start_signature service_fixture
       ∧ ∃ k, back_at_zero (scanned service_fixture start_signature) k)
  ∧ (locate service_fixture start_signature "startStreamWithMcp"
       = Raise (SignatureNotFound "startStreamWithMcp")
     ∨ locate service_fixture start_signature "startStreamWithMcp"
       = Raise (UnbalancedBlock "startStreamWithMcp")
     ∨ ∃ sp, locate service_fixture start_signature "startStreamWithMcp" = Ok sp).
Proof.
  apply (locate_fails_exactly service_fixture start_signature "startStreamWithMcp").
  exists (take 74 start_signature), []. split; [done | brace_free].
Defined.

(** ** Substring replacement *)

Lemma contains_nil (s : str) : contains s [] = true.
Proof. by destruct s. Qed.

(** Replacing a string that does not occur changes nothing. *)
Lemma replace_absent (s old new : str) :
  contains s old = false → replace s old new = s.
Proof.
  destruct old as [|a old]; [by rewrite contains_nil|].
  unfold replace. induction s as [|c s IH]; [done|].
  cbn [contains]. intros [E1 E2]%orb_false_elim.
  cbn [replace_from]. rewrite E1. f_equal. by apply IH.
Qed.

Lemma contains_app_l (s sub r : str) :
  contains s sub = true → contains (s ++ r) sub = true.
Proof.
  rewrite !contains_occurs. intros (l & r' & ->).
  exists l, (r' ++ r). by rewrite <- !app_assoc.
Qed.

Lemma contains_app_r (l s sub : str) :
  contains s sub = true → contains (l ++ s) sub = true.
Proof.
  rewrite !contains_occurs. intros (l' & r & ->).
  exists (l ++ l'), r. by rewrite <- !app_assoc.
Qed.

(** Replacing a string that occurs leaves its replacement in the result. *)
Lemma replace_present (s old new : str) :
  old ≠ [] → contains s old = true → contains (replace s old new) new = true.
Proof.
  destruct old as [|a old]; [done|]. intros _.
  unfold replace. induction s as [|c s IH]; [done|].
  cbn [contains replace_from]. destruct (startswith (a :: old) (c :: s)) eqn:E.
  - intros _. apply contains_app_l. apply contains_occurs.
    exists [], []. by rewrite app_nil_r.
  - simpl. intros H%IH. apply (contains_app_r [c]) in H. exact H.
Qed.

Lemma contains_find (s sub : str) :
  contains s sub = true → find s sub ≠ -1.
Proof. rewrite find_absent, contains_occurs. tauto. Qed.

(** The first occurrence, as a split of the text. *)
Lemma find_split (s sub : str) :
  find s sub ≠ -1 →
  ∃ l r, s = l ++ sub ++ r ∧ find s sub = Z.of_nat (length l).
Proof.
  intros Hne. destruct (find_range s sub) as [?|Hr]; [done|].
  assert (find s sub = Z.of_nat (Z.to_nat (find s sub))) as Hi by lia.
  pose proof Hi as [(l & r & -> & Hl)%occurs_at_split _]%find_first.
  exists l, r. split; [done|]. rewrite Hl. exact Hi.
Qed.

(** Dropping the rest of an occurrence is skipping it. *)
Lemma replace_from_skip (old new s : str) (k : nat) :
  replace_from old new s k = replace_from old new (drop k s) 0.
Proof.
  revert k. induction s as [|c s IH]; intros [|k]; try done.
  simpl. apply IH.
Qed.

Lemma replace_from_occurrence (old new r : str) :
  old ≠ [] →
  replace_from old new (old ++ r) 0 = new ++ replace_from old new r 0.
Proof.
  destruct old as [|a old]; [done|]. intros _.
  pose proof (startswith_app (a :: old) r) as E.
  change ((a :: old) ++ r) with (a :: (old ++ r)) in *.
  cbn [replace_from]. rewrite E.
  f_equal. rewrite replace_from_skip. simpl length.
  replace (S (length old) - 1)%nat with (length old) by lia.
  by rewrite drop_app_length.
Qed.

Lemma replace_from_before (old new l rest : str) :
  (∀ j, (j < length l)%nat → ¬ occurs_at old (l ++ rest) j) →
  replace_from old new (l ++ rest) 0 = l ++ replace_from old new rest 0.
Proof.
  induction l as [|c l IH]; intros Hno; [done|].
  simpl app. cbn [replace_from].
  destruct (startswith old (c :: l ++ rest)) eqn:E.
  { destruct (Hno 0%nat); [simpl; lia | by apply occurs_at_0]. }
  f_equal. apply IH. intros j Hj.
  rewrite <- (occurs_at_S _ _ c). apply Hno. simpl. lia.
Qed.

Lemma replace_at_first (l old new r : str) :
  old ≠ [] →
  find (l ++ old ++ r) old = Z.of_nat (length l) →
  replace (l ++ old ++ r) old new = l ++ new ++ replace r old new.
Proof.
  intros Hold [_ Hmin]%find_first.
  unfold replace. destruct old as [|a old]; [done|].
  rewrite replace_from_before by done.
  by rewrite replace_from_occurrence.
Qed.

(** ** C6: the idempotency guard *)

(** Every exit of the edit sequence is one of the four exits of the two
    block locations: no other step of the sequence can fail. *)
Lemma patch_exits (B : str) (e : exn) :
  patch B = Raise e →
  e ∈ [SignatureNotFound "startStreamWithMcp"; UnbalancedBlock "startStreamWithMcp";
       SignatureNotFound "handleStreamFailure"; UnbalancedBlock "handleStreamFailure"].
Proof.
  unfold patch, locate_and_replace.
  set (t := prepare _). clearbody t.
  destruct (locate_cases t start_signature "startStreamWithMcp")
    as [[_ H]|(i & _ & _ & [[_ H]|(k & _ & _ & H)])]; rewrite H; clear H.
  - intros [= <-]. set_solver.
  - intros [= <-]. set_solver.
  - cbn [mbind result_bind mret result_ret].
    set (t' := replace_block _ _ _). clearbody t'.
    destruct (locate_cases t' handle_signature "handleStreamFailure")
      as [[_ H]|(i' & _ & _ & [[_ H]|(k' & _ & _ & H)])]; rewrite H; clear H.
    + intros [= <-]. set_solver.
    + intros [= <-]. set_solver.
    + done.
Qed.

(** C6.  The guard [marker in text] is true exactly when the marker occurs
    in the buffer as it stands, character for character, and false exactly
    when it does not; being a total function from the buffer to [bool] it
    raises nothing and changes nothing; and when it is true the guarded
    insertion is skipped: the edit returns the buffer as it was, for any
    guarded edit and so for the two of the script. *)
Theorem guard_exact (B marker target new : str) :
  (contains B marker = true ↔ ∃ l r, B = l ++ marker ++ r)
  ∧ (contains B marker = false ↔ ¬ ∃ l r, B = l ++ marker ++ r)
  ∧ (contains B marker = true → insert_if_absent marker target new B = B)
  ∧ (contains B field_marker = true → ensure_field B = B)
  ∧ (contains B init_marker = true → ensure_init B = B).
Proof.
  split; [apply contains_occurs|]. split; [apply contains_false|].
  unfold ensure_field, ensure_init, insert_if_absent.
  repeat split; by intros ->.
Qed.

(** ** C10: a missing insertion anchor is not fatal *)

(** C10.  When the guard marker is absent and the anchor to insert after is
    absent too, the substring replacement finds nothing to replace and the
    guarded edit returns the buffer unchanged; this holds for the two
    guarded edits of the script, and whatever exit the edit sequence takes
    is an exit of one of the two block locations, never of an insertion. *)
Theorem insert_without_anchor (B marker target new : str) :
  contains B marker = false →
  ¬ occurs target B →
  replace B target new = B
  ∧ insert_if_absent marker target new B = B
  ∧ ∀ e, patch B = Raise e →
      e ∈ [SignatureNotFound "startStreamWithMcp";
           UnbalancedBlock "startStreamWithMcp";
           SignatureNotFound "handleStreamFailure";
           UnbalancedBlock "handleStreamFailure"].
Proof.
  intros Hm Ha%contains_false.
  assert (replace B target new = B) as Hr by by apply replace_absent.
  split; [done|]. split; [|apply patch_exits].
  unfold insert_if_absent. by rewrite Hm.
Qed.

(** The field insertion of the script on a buffer that has neither the
    field nor the line to insert it after. *)
Lemma insert_without_anchor_field :
  replace (chars "class StreamService {}") target (target ++ field_decl)
    = chars "class StreamService {}"
  ∧ ensure_field (chars "class StreamService {}") = chars "class StreamService {}".
Proof.
  destruct (insert_without_anchor (chars "class StreamService {}")
              field_marker target (target ++ field_decl)) as (H1 & H2 & _).
  - done.
  - by apply contains_false.
  - split; [exact H1 | exact H2].
Defined.

(** ** C8: the end-to-end scenario *)

(** C8.  On the buffer [fn foo() { if (x) { y(); } }] with the signature
    [fn foo() {], locating the block and replacing it by
    [fn foo() { return 1; }] gives exactly [fn foo() { return 1; }]; and
    with any text before and after the buffer, the signature first occurring
    where the buffer starts, that text is kept as it is around the
    replacement. *)
Theorem foo_end_to_end :
  locate_and_replace foo_buffer foo_signature "foo" foo_replacement
    = Ok foo_replacement
  ∧ ∀ pre post : str,
      find (pre ++ foo_buffer ++ post) foo_signature = Z.of_nat (length pre) →
      locate_and_replace (pre ++ foo_buffer ++ post) foo_signature "foo"
        foo_replacement
      = Ok (pre ++ foo_replacement ++ post).
Proof.
  split; [done|]. intros pre post Hfind.
  unfold locate_and_replace.
  rewrite (locate_balanced_span _ _ pre (chars "fn foo() ")
             (chars " if (x) " ++ open_brace :: chars " y(); " ++ close_brace :: chars " ")
             post "foo" Hfind eq_refl).
  - cbn [mbind result_bind mret result_ret]. f_equal.
    rewrite replace_block_take_drop.
    + cbn [start_index end_index]. rewrite Nat2Z.id, take_app_length.
      do 2 f_equal.
      replace (Z.to_nat _ + 1)%nat with (length pre + 28)%nat by (simpl; lia).
      by rewrite drop_app_add.
    + cbn [start_index end_index]. lia.
    + cbn [start_index end_index]. rewrite !length_app. simpl. lia.
  - brace_free.
  - apply balanced_app; [balanced_leaf|].
    apply balanced_block; balanced_leaf.
Qed.

(** ** C4: all or nothing *)

Lemma main_unfold (w : world) (text : str) :
  files w !! path = Some text →
  main w =
    match patch text with
    | Ok text' =>
        ({| files := <[path := text']> (files w);
            trace := WriteText path text' :: ReadText path :: trace w |}, Ok tt)
    | Raise e =>
        ({| files := files w; trace := ReadText path :: trace w |}, Raise e)
    end.
Proof.
  intros Hf. unfold main. cbv [mbind io_bind read_text write_text lift].
  rewrite Hf. by destruct (patch text).
Qed.

(** C4.  Let the target file hold [text].  If either block location fails,
    the edit sequence fails with that exit; if the edit sequence fails, the
    run ends with that exit having read the file and written nothing, the
    files being as they were; if every edit succeeds the run writes the
    patched buffer to the target file, once, after the read; and a run that
    left the files changed is a run in which every edit succeeded. *)
Theorem main_all_or_nothing (w : world) (text : str) :
  files w !! path = Some text →
  (∀ e, locate (prepare text) start_signature "startStreamWithMcp" = Raise e →
        patch text = Raise e)
  ∧ (∀ sp e,
       locate (prepare text) start_signature "startStreamWithMcp" = Ok sp →
       locate (replace_block (prepare text) sp new_start) handle_signature
         "handleStreamFailure" = Raise e →
       patch text = Raise e)
  ∧ (∀ e, patch text = Raise e →
       main w = ({| files := files w; trace := ReadText path :: trace w |}, Raise e))
  ∧ (∀ text', patch text = Ok text' →
       main w = ({| files := <[path := text']> (files w);
                    trace := WriteText path text' :: ReadText path :: trace w |},
                 Ok tt))
  ∧ (files (main w).1 ≠ files w → ∃ text', patch text = Ok text').
Proof.
  intros Hf. rewrite (main_unfold w text Hf).
  split; [|split; [|split; [|split]]].
  - intros e He. unfold patch, locate_and_replace. cbn zeta. by rewrite He.
  - intros sp e Hsp He. unfold patch, locate_and_replace. cbn zeta.
    rewrite Hsp. cbn [mbind result_bind mret result_ret]. by rewrite He.
  - by intros e ->.
  - by intros text' ->.
  - destruct (patch text) as [text'|e]; [eauto | done].
Qed.

(** A target file without the method to replace: the run exits and the file
    is as it was. *)
Lemma main_all_or_nothing_missing_method :
  main {| files := {[ path := chars "class StreamService {}" ]}; trace := [] |}
  = ({| files := {[ path := chars "class StreamService {}" ]};
        trace := [ReadText path] |},
     Raise (SignatureNotFound "startStreamWithMcp")).
Proof.
  destruct (main_all_or_nothing
              {| files := {[ path := chars "class StreamService {}" ]}; trace := [] |}
              (chars "class StreamService {}")) as (_ & _ & H & _).
  - apply lookup_singleton_eq.
  - apply H. done.
Defined.

(** ** C7: running the edit sequence twice *)

Lemma contains_trans (s new marker : str) :
  contains s new = true → contains new marker = true →
  contains s marker = true.
Proof.
  rewrite !contains_occurs. intros (l & r & ->) (l' & r' & ->).
  exists (l ++ l'), (r' ++ r). by rewrite <- !app_assoc.
Qed.

(** A guarded insertion whose inserted text carries the guard marker does
    nothing the second time. *)
Lemma insert_if_absent_idempotent (marker target new B : str) :
  target ≠ [] →
  contains new marker = true →
  insert_if_absent marker target new (insert_if_absent marker target new B)
  = insert_if_absent marker target new B.
Proof.
  intros Ht Hnew. unfold insert_if_absent.
  destruct (contains B marker) eqn:Em; simpl; [by rewrite Em|].
  destruct (contains B target) eqn:Et.
  - assert (contains (replace B target new) marker = true) as ->; [|done].
    apply (contains_trans _ new); [by apply replace_present | done].
  - rewrite (replace_absent B target new Et), Em. simpl.
    by apply replace_absent.
Qed.

(** After a guarded insertion whose anchor was there, the marker is there. *)
Lemma insert_if_absent_marks (marker target new B : str) :
  target ≠ [] →
  contains new marker = true →
  contains B target = true →
  contains (insert_if_absent marker target new B) marker = true.
Proof.
  intros Ht Hnew HB. unfold insert_if_absent.
  destruct (contains B marker) eqn:Em; [done|]. simpl.
  apply (contains_trans _ new); [by apply replace_present | done].
Qed.

(** *** Inserting a line keeps and creates no occurrence of another line *)

Lemma occurs_app_l (m a b : str) : occurs m a → occurs m (a ++ b).
Proof. intros (l & r & ->). exists l, (r ++ b). by rewrite <- !app_assoc. Qed.

Lemma occurs_app_r (m a b : str) : occurs m b → occurs m (a ++ b).
Proof. intros (l & r & ->). exists (a ++ l), r. by rewrite <- !app_assoc. Qed.

Lemma only_last_notin (c : char) (m : str) : c ∉ m → only_last c m.
Proof. intros Hn m1 m2 ->. destruct Hn. set_solver. Qed.

Lemma only_last_snoc (c : char) (body : str) :
  c ∉ body → only_last c (body ++ [c]).
Proof.
  intros Hn m1 m2 Heq. destruct m2 as [|x m2 _] using rev_ind; [done|].
  rewrite app_comm_cons, app_assoc in Heq.
  apply app_inj_tail in Heq as [-> _]. destruct Hn. set_solver.
Qed.

(** An occurrence of a line in two texts put together, the first of which
    ends with the newline, is in one of the two. *)
Lemma occurs_app_ends (m a b : str) (c : char) :
  only_last c m → last a = Some c →
  occurs m (a ++ b) → occurs m a ∨ occurs m b.
Proof.
  intros Hm Ha (x & y & Heq).
  apply app_eq_inv in Heq as [(k & -> & Hk)|(k & -> & ->)].
  - apply app_eq_inv in Hk as [(k' & -> & ->)|(k' & -> & ->)].
    + destruct k as [|k0 k]; [right; by exists [], y|].
      destruct k' as [|k1 k']; [left; exists x, []; by rewrite !app_nil_r|].
      exfalso. rewrite last_app in Ha.
      destruct (last (k0 :: k)) as [c'|] eqn:El; [|by apply last_None in El].
      injection Ha as ->. apply last_Some in El as [l' El]. rewrite El in Hm.
      specialize (Hm l' (k1 :: k')). rewrite <- app_assoc in Hm.
      by specialize (Hm eq_refl).
    + left. by exists x, k'.
  - right. by exists k, y.
Qed.

(** Inserting [ins] after every [old], both lines: a line that occurs in the
    text still occurs after the insertion. *)
Lemma replace_insert_preserves (m old ins s : str) (c : char) :
  old ≠ [] → last old = Some c → only_last c m →
  occurs m s → occurs m (replace s old (old ++ ins)).
Proof.
  intros Hold Hlast Hm. remember (length s) as n eqn:Hn. revert s Hn.
  induction n as [n IH] using lt_wf_ind. intros s -> Hocc.
  destruct (contains s old) eqn:E; [|by rewrite replace_absent].
  destruct (find_split s old (contains_find _ _ E)) as (l & r & -> & Hl).
  rewrite replace_at_first by done.
  rewrite app_assoc in Hocc.
  apply (occurs_app_ends m (l ++ old) r c) in Hocc as [H|H];
    [| |done|by rewrite last_app, Hlast].
  - rewrite <- app_assoc, app_assoc. by apply occurs_app_l.
  - do 2 apply occurs_app_r. apply (IH (length r)); [|done|done].
    rewrite !length_app. destruct old; [done | simpl; lia].
Qed.

(** ... and a line that occurs after the insertion occurred before it, or
    is in the inserted line. *)
Lemma replace_insert_creates_nothing (m old ins s : str) (c : char) :
  old ≠ [] → last old = Some c → last ins = Some c → only_last c m →
  occurs m (replace s old (old ++ ins)) → occurs m s ∨ occurs m ins.
Proof.
  intros Hold Hlast Hins Hm. remember (length s) as n eqn:Hn. revert s Hn.
  induction n as [n IH] using lt_wf_ind. intros s ->.
  destruct (contains s old) eqn:E; [|rewrite replace_absent by done; by left].
  destruct (find_split s old (contains_find _ _ E)) as (l & r & -> & Hl).
  rewrite replace_at_first by done. intros Hocc.
  rewrite <- app_assoc, !app_assoc in Hocc.
  apply (occurs_app_ends m _ _ c) in Hocc as [H|H];
    [| |done|by rewrite last_app, Hins].
  - apply (occurs_app_ends m _ _ c) in H as [H|H];
      [| |done|by rewrite last_app, Hlast].
    + left. rewrite app_assoc. by apply occurs_app_l.
    + by right.
  - apply (IH (length r)) in H as [H|H]; [| |..]; try done.
    + left. by do 2 apply occurs_app_r.
    + by right.
    + rewrite !length_app. destruct old; [done | simpl; lia].
Qed.

(** The field insertion has nothing to do after the initialisation insertion
    if it had nothing to do before it: the initialisation line is put after
    a newline, so it neither breaks the field marker nor makes up the field
    anchor. *)
Lemma ensure_field_after_init (X : str) :
  ensure_field X = X → ensure_field (ensure_init X) = ensure_init X.
Proof.
  intros HX. unfold ensure_init, insert_if_absent.
  destruct (contains X init_marker) eqn:EI; cbn [negb]; [done|].
  change init_new with (init_target ++ chars "    this.activeScreenshotTasks = new Set();
").
  set (decl := chars "    this.activeScreenshotTasks = new Set();
").
  unfold ensure_field at 1, insert_if_absent.
  destruct (contains (replace X init_target (init_target ++ decl)) field_marker)
    eqn:ER; cbn [negb]; [done|].
  apply replace_absent.
  destruct (contains (replace X init_target (init_target ++ decl)) target)
    eqn:ET; [exfalso|done].
  assert (only_last 10%N target) as Htarget.
  { change (only_last 10%N (take 75 target ++ [10%N])).
    apply only_last_snoc. by apply (bool_decide_unpack _). }
  assert (only_last 10%N field_marker) as Hmarker.
  { apply only_last_notin. by apply (bool_decide_unpack _). }
  apply contains_occurs in ET.
  apply (replace_insert_creates_nothing target init_target decl X 10%N) in ET
    as [H|H]; [| |done..].
  - apply contains_occurs in H.
    unfold ensure_field, insert_if_absent in HX.
    destruct (contains X field_marker) eqn:EF; cbn [negb] in HX.
    + apply contains_occurs in EF.
      apply (replace_insert_preserves field_marker init_target decl X 10%N) in EF;
        [|done..].
      apply contains_occurs in EF. congruence.
    + pose proof (replace_present X target (target ++ field_decl)) as Hp.
      rewrite HX in Hp.
      assert (contains X field_marker = true); [|congruence].
      apply (contains_trans _ (target ++ field_decl)); [by apply Hp | done].
  - apply contains_occurs in H. by vm_compute in H.
Qed.

(** The two guarded insertions, one after the other, twice. *)
Lemma insertions_twice (B : str) :
  ensure_init (ensure_field (ensure_init (ensure_field B)))
  = ensure_init (ensure_field B).
Proof.
  rewrite (ensure_field_after_init (ensure_field B)).
  - by apply insert_if_absent_idempotent.
  - by apply insert_if_absent_idempotent.
Qed.

(** C7, as the script has it.  Running the guarded insertions twice yields
    the same buffer as running them once: for every buffer, the field
    insertion followed by the initialisation insertion, applied to its own
    output, changes nothing, and so does each insertion alone (it is skipped
    when its marker is there, and finds nothing to replace when its anchor
    is not); where the anchor of an insertion occurs, its marker occurs in
    the output, which is what makes the second run skip it.  With the import
    removals before them (lines 7-23 as a whole) the same holds whenever the
    first run left no import line behind. *)
Theorem guarded_insertions_idempotent (B : str) :
  ensure_init (ensure_field (ensure_init (ensure_field B)))
    = ensure_init (ensure_field B)
  ∧ ensure_field (ensure_field B) = ensure_field B
  ∧ ensure_init (ensure_init B) = ensure_init B
  ∧ (occurs target B → contains (ensure_field B) field_marker = true)
  ∧ (occurs init_target B → contains (ensure_init B) init_marker = true)
  ∧ (contains (prepare B) import_fs = false →
     contains (prepare B) import_path = false →
     prepare (prepare B) = prepare B).
Proof.
  split; [apply insertions_twice|].
  split; [by apply insert_if_absent_idempotent|].
  split; [by apply insert_if_absent_idempotent|].
  split; [intros H%contains_occurs; by apply insert_if_absent_marks|].
  split; [intros H%contains_occurs; by apply insert_if_absent_marks|].
  intros Hfs Hpath. unfold prepare at 1. cbn zeta.
  rewrite (replace_absent (prepare B) import_fs) by done.
  rewrite (replace_absent (prepare B) import_path) by done.
  unfold prepare. cbn zeta. apply insertions_twice.
Qed.

(** Without that proviso the removals can leave work for a second run: an
    import line wrapped around another one is put together by the first. *)
Lemma prepare_twice_nested_import :
  prepare (chars "import * as fs " ++ import_fs ++ chars "from 'fs';
") = import_fs
  ∧ prepare import_fs = [].
Proof. split; by vm_compute. Qed.

(** The whole sequence is not idempotent.  On the fixture the first run
    succeeds; run again on its output, the first block replacement puts its
    text in again, whose last character is a newline after the close brace,
    so the buffer grows by a newline; and the second block replacement has
    rewritten its own signature ([rawError: any] became [rawError: unknown]),
    so the second run exits with "handleStreamFailure not found". *)
Lemma patch_twice_differs :
  patch service_fixture = Ok service_patched
  ∧ locate_and_replace service_patched start_signature "startStreamWithMcp" new_start
    = Ok (chars "class StreamService {
" ++ new_start ++ chars "

" ++ new_handle ++ chars "
}
")
  ∧ patch service_patched = Raise (SignatureNotFound "handleStreamFailure").
Proof. repeat split; by vm_compute. Qed.

(** * Further properties of the script *)

(** ** [str.find] and [in] *)

(** X1.  A signature that [find] finds lies wholly inside the buffer: the
    offset is not negative, the signature ends at or before the end of the
    buffer, and the buffer reads as the signature from that offset on. *)
Theorem find_inside (s sub : str) :
  find s sub ≠ -1 →
  0 ≤ find s sub
  ∧ find s sub + Z.of_nat (length sub) ≤ Z.of_nat (length s)
  ∧ take (length sub) (drop (Z.to_nat (find s sub)) s) = sub.
Proof.
  intros Hne. destruct (find_range s sub) as [?|Hr]; [done|].
  assert (find s sub = Z.of_nat (Z.to_nat (find s sub))) as Hi by lia.
  apply find_first in Hi as [[Hle [k Hk]] _].
  split; [lia|]. rewrite Hk, take_app_length. split; [|done].
  apply (f_equal length) in Hk. rewrite length_drop, length_app in Hk. lia.
Qed.

Lemma find_inside_abcabc :
  0 ≤ find (chars "abcabc") (chars "bc")
  ∧ find (chars "abcabc") (chars "bc") + 2 ≤ 6
  ∧ take 2 (drop (Z.to_nat (find (chars "abcabc") (chars "bc"))) (chars "abcabc"))
    = chars "bc".
Proof. apply (find_inside (chars "abcabc") (chars "bc")). done. Defined.

(** X2.  The guard and the locator agree on what "present" means:
    [sub in s] is true exactly when [s.find(sub)] is not [-1]. *)
Theorem in_agrees_with_find (s sub : str) :
  contains s sub = true ↔ find s sub ≠ -1.
Proof.
  split; [apply contains_find|]. rewrite find_absent.
  intros H. destruct (contains s sub) eqn:E; [done|].
  apply contains_false in E. by destruct H.
Qed.

(** ** [str.replace] *)

(** X3.  [replace] works from the left: where the first occurrence of [old]
    starts after [l], the text [l] is kept, the occurrence becomes [new], and
    the replacement goes on in what follows the occurrence (so matches never
    overlap and [new] is not searched again); if [old] does not occur in what
    follows, only that one occurrence is replaced. *)
Theorem replace_first_occurrence (l old new r : str) :
  old ≠ [] →
  find (l ++ old ++ r) old = Z.of_nat (length l) →
  replace (l ++ old ++ r) old new = l ++ new ++ replace r old new
  ∧ (contains r old = false → replace (l ++ old ++ r) old new = l ++ new ++ r).
Proof.
  intros Hold Hfind.
  pose proof (replace_at_first l old new r Hold Hfind) as Heq.
  split; [done|]. intros Hr. by rewrite Heq, (replace_absent r).
Qed.

Lemma replace_first_occurrence_twice :
  replace (chars "x=a;y=a;") (chars "=a") (chars ":=b") = chars "x:=b;y:=b;"
  ∧ (contains (chars ";y=a;") (chars "=a") = false →
     replace (chars "x=a;y=a;") (chars "=a") (chars ":=b") = chars "x:=b;y=a;").
Proof.
  apply (replace_first_occurrence (chars "x") (chars "=a") (chars ":=b") (chars ";y=a;")); done.
Defined.

Lemma replace_from_nil_length (old s : str) (k : nat) :
  (length (replace_from old [] s k) ≤ length s)%nat.
Proof.
  revert k. induction s as [|c s IH]; intros k; [done|].
  cbn [replace_from]. destruct k as [|k].
  - destruct (startswith old (c :: s)); simpl.
    + specialize (IH (length old - 1)%nat). lia.
    + specialize (IH 0%nat). lia.
  - specialize (IH k). simpl. lia.
Qed.

(** X4.  Removing a line (replacing it by the empty string, as the script
    does with the two imports) never makes the text longer, and leaves the
    text as it was exactly when the line does not occur in it. *)
Theorem remove_shrinks (s old : str) :
  old ≠ [] →
  (length (replace s old []) ≤ length s)%nat
  ∧ (replace s old [] = s ↔ contains s old = false).
Proof.
  intros Hold.
  assert (∀ t, (length (replace t old []) ≤ length t)%nat) as Hlen.
  { intros t. unfold replace. destruct old; [done|]. apply replace_from_nil_length. }
  split; [apply Hlen|]. split; [|apply replace_absent].
  intros Heq. destruct (contains s old) eqn:E; [exfalso|done].
  apply contains_find in E.
  destruct (find_split s old E) as (l & r & -> & Hl).
  pose proof (replace_at_first l old [] r Hold Hl) as Hr.
  rewrite Hr in Heq. apply (f_equal length) in Heq.
  rewrite !length_app in Heq. specialize (Hlen r). simpl in Heq.
  assert (0 < length old)%nat by (destruct old; [done | simpl; lia]). lia.
Qed.

Lemma remove_shrinks_import :
  (length (replace (import_fs ++ chars "class A {}") import_fs [])
   ≤ length (import_fs ++ chars "class A {}"))%nat
  ∧ (replace (import_fs ++ chars "class A {}") import_fs []
       = import_fs ++ chars "class A {}"
     ↔ contains (import_fs ++ chars "class A {}") import_fs = false).
Proof. apply (remove_shrinks (import_fs ++ chars "class A {}") import_fs). done. Defined.

(** ** Where the guarded insertions put their text *)

(** X5.  In a buffer that lacks the marker and holds the anchor line once,
    each guarded insertion of the script puts its declaration right after
    the anchor line and changes nothing else. *)
Theorem insertions_go_after_anchor (l r : str) :
  (contains (l ++ target ++ r) field_marker = false →
   find (l ++ target ++ r) target = Z.of_nat (length l) →
   contains r target = false →
   ensure_field (l ++ target ++ r) = l ++ target ++ field_decl ++ r)
  ∧ (contains (l ++ init_target ++ r) init_marker = false →
     find (l ++ init_target ++ r) init_target = Z.of_nat (length l) →
     contains r init_target = false →
     ensure_init (l ++ init_target ++ r)
     = l ++ init_target ++ chars "    this.activeScreenshotTasks = new Set();
" ++ r).
Proof.
  split; intros Hm Hf Hr.
  - unfold ensure_field, insert_if_absent. rewrite Hm. simpl negb. cbv iota.
    rewrite replace_at_first by done.
    by rewrite (replace_absent r), <- app_assoc.
  - unfold ensure_init, insert_if_absent. rewrite Hm. simpl negb. cbv iota.
    rewrite replace_at_first by done.
    rewrite (replace_absent r) by done.
    change init_new with (init_target ++ chars "    this.activeScreenshotTasks = new Set();
").
    by rewrite <- app_assoc.
Qed.

(** The constructor of a small class gets the initialisation after the line
    that creates the client map. *)
Lemma insertions_go_after_anchor_constructor :
  ensure_init (chars "  constructor() {
" ++ init_target ++ chars "  }
")
  = chars "  constructor() {
    this.mcpClients = new Map();
    this.activeScreenshotTasks = new Set();
  }
".
Proof.
  destruct (insertions_go_after_anchor (chars "  constructor() {
") (chars "  }
")) as [_ H].
  rewrite H; done.
Defined.

(** ** The located block *)

(** X6.  The block the locator returns holds as many open braces as close
    braces, and it is the shortest stretch of text from the signature
    offset with that property that ends on a close brace. *)
Theorem located_block_counts (B sig : str) (name : string) (sp : Span) :
  locate B sig name = Ok sp →
  depth (take (Z.to_nat (end_index sp - start_index sp + 1))
           (drop (Z.to_nat (start_index sp)) B)) = 0
  ∧ ∀ j : nat,
      Z.of_nat j < end_index sp - start_index sp →
      drop (Z.to_nat (start_index sp)) B !! j = Some close_brace →
      depth (take (S j) (drop (Z.to_nat (start_index sp)) B)) ≠ 0.
Proof.
  intros Hloc.
  destruct (locate_cases B sig name)
    as [[_ H]|(i & _ & _ & [[_ H]|(k & Hs & _ & H)])];
    rewrite H in Hloc; try done.
  injection Hloc as <-. cbn [start_index end_index].
  apply scan_from_first in Hs as [[_ Hd] Hmin].
  rewrite Nat2Z.id.
  replace (Z.to_nat (Z.of_nat i + Z.of_nat k - Z.of_nat i + 1)) with (S k) by lia.
  split; [lia|]. intros j Hj Hc Hz.
  destruct (Hmin j); [lia|]. split; [done | lia].
Qed.

Lemma located_block_counts_foo :
  depth (take 28 foo_buffer) = 0
  ∧ ∀ j : nat, Z.of_nat j < 27 → foo_buffer !! j = Some close_brace →
               depth (take (S j) foo_buffer) ≠ 0.
Proof.
  exact (located_block_counts foo_buffer foo_signature "foo"
           {| start_index := 0; end_index := 27 |} eq_refl).
Defined.

(** X7.  When the signature holds no close brace, as both signatures of the
    script, the located block covers the whole signature: the block starts
    with the signature and its close brace comes after the signature's last
    character. *)
Theorem located_block_covers_signature (B sig : str) (name : string) (sp : Span) :
  close_brace ∉ sig →
  locate B sig name = Ok sp →
  start_index sp + Z.of_nat (length sig) ≤ end_index sp
  ∧ take (length sig) (drop (Z.to_nat (start_index sp)) B) = sig.
Proof.
  intros Hsig Hloc.
  destruct (locate_cases B sig name)
    as [[_ H]|(i & Hi & _ & [[_ H]|(k & Hs & _ & H)])];
    rewrite H in Hloc; try done.
  injection Hloc as <-. cbn [start_index end_index]. rewrite Nat2Z.id.
  apply find_first in Hi as [[_ [rest Hrest]] _].
  apply scan_from_first in Hs as [[Hc _] _].
  rewrite Hrest in *. split; [|by rewrite take_app_length].
  destruct (decide (k < length sig)%nat) as [Hk|Hk]; [|lia].
  rewrite lookup_app_l in Hc by done.
  by apply list_elem_of_lookup_2 in Hc.
Qed.

Lemma located_block_covers_signature_start :
  Z.of_nat (length (chars "class S {
")) + Z.of_nat (length start_signature) ≤ 88
  ∧ take (length start_signature)
      (drop (length (chars "class S {
")) (chars "class S {
" ++ start_signature ++ chars "
  }
}")) = start_signature.
Proof.
  assert (close_brace ∉ start_signature) as Hsig.
  { by apply (bool_decide_unpack _). }
  exact (located_block_covers_signature (chars "class S {
" ++ start_signature ++ chars "
  }
}") start_signature "startStreamWithMcp"
           {| start_index := 10; end_index := 88 |} Hsig eq_refl).
Defined.

(** ** One edit, taken apart *)

(** A successful edit: where the signature was found, where the block ended,
    and what the new buffer is. *)
Lemma locate_and_replace_Ok (B sig new B' : str) (name : string) :
  locate_and_replace B sig name new = Ok B' →
  ∃ i k : nat,
    find B sig = Z.of_nat i
    ∧ scan_from (drop i B) (Z.of_nat i) 0 = Some (Z.of_nat i + Z.of_nat k)
    ∧ (i + k < length B)%nat
    ∧ locate B sig name =
        Ok {| start_index := Z.of_nat i; end_index := Z.of_nat i + Z.of_nat k |}
    ∧ B' = take i B ++ new ++ drop (i + k + 1) B.
Proof.
  unfold locate_and_replace.
  destruct (locate_cases B sig name)
    as [[_ H]|(i & Hi & Hle & [[_ H]|(k & Hs & Hk & H)])]; rewrite H; try done.
  cbn [mbind result_bind mret result_ret]. intros [= <-].
  rewrite length_drop in Hk.
  exists i, k. repeat split; try done; [lia|].
  rewrite replace_block_take_drop by (cbn [start_index end_index]; lia).
  cbn [start_index end_index]. rewrite Nat2Z.id. do 3 f_equal. lia.
Qed.

(** An occurrence depends only on the text up to its end. *)
Lemma occurs_at_agree (sub s s' : str) (j n : nat) :
  occurs_at sub s j → (j + length sub ≤ n)%nat → take n s = take n s' →
  occurs_at sub s' j.
Proof.
  intros (l & r & -> & Hl)%occurs_at_split Hn Heq.
  apply occurs_at_split. exists l, (drop (j + length sub) s'). split; [|done].
  rewrite app_assoc. rewrite <- (take_drop (j + length sub) s') at 1. f_equal.
  apply (f_equal (take (j + length sub))) in Heq.
  rewrite !take_take, Nat.min_l in Heq by done. rewrite <- Heq.
  rewrite app_assoc, take_app_length'; [done|]. rewrite length_app. lia.
Qed.

(** The first occurrence depends only on the text up to its end. *)
Lemma find_agree (s s' sub : str) (i n : nat) :
  find s sub = Z.of_nat i → (i + length sub ≤ n)%nat → take n s = take n s' →
  find s' sub = Z.of_nat i.
Proof.
  intros [Hat Hmin]%find_first Hn Heq. apply find_first. split.
  - by eapply occurs_at_agree.
  - intros j Hj Hocc. apply (Hmin j Hj).
    eapply (occurs_at_agree _ s' s j n); [done | lia | done].
Qed.

(** The loop does not look past the close brace it stops at. *)
Lemma scan_from_app (p rest : str) (i d e : Z) :
  scan_from p i d = Some e → scan_from (p ++ rest) i d = Some e.
Proof.
  revert i d. induction p as [|c p IH]; intros i d; [done|].
  simpl app. rewrite !scan_from_step. destruct (decide _); [done | apply IH].
Qed.

(** The loop's answer moves with the offset it starts from. *)
Lemma scan_from_shift (p : str) (i d : Z) (k : nat) :
  scan_from p 0 d = Some (Z.of_nat k) → scan_from p i d = Some (i + Z.of_nat k).
Proof.
  intros H. apply scan_from_first. by apply (scan_from_first p 0 d k).
Qed.

(** X8.  An edit is local: text appended after the buffer is not looked at.
    If locating and replacing a block succeeds on a buffer, it succeeds on
    the buffer followed by any further text, with the same result followed
    by that text. *)
Theorem edit_is_local (B sig new extra B' : str) (name : string) :
  locate_and_replace B sig name new = Ok B' →
  locate_and_replace (B ++ extra) sig name new = Ok (B' ++ extra).
Proof.
  intros (i & k & Hi & Hs & Hk & _ & ->)%locate_and_replace_Ok.
  assert (find (B ++ extra) sig = Z.of_nat i) as Hi'.
  { apply find_first in Hi as Hocc. destruct Hocc as [[_ [r Hr]] _].
    apply (find_agree B _ sig i (length B)); [done| |].
    - apply (f_equal length) in Hr. rewrite length_drop, length_app in Hr. lia.
    - by rewrite take_app_length, take_ge. }
  unfold locate_and_replace, locate, scan. rewrite Hi'.
  destruct (Z.eqb_spec (Z.of_nat i) (-1)); [lia|].
  rewrite Nat2Z.id, drop_app_le by lia.
  rewrite (scan_from_app _ extra _ _ _ Hs).
  cbn [mbind result_bind mret result_ret]. f_equal.
  rewrite replace_block_take_drop.
  - cbn [start_index end_index]. rewrite Nat2Z.id, take_app_le by lia.
    replace (Z.to_nat (Z.of_nat i + Z.of_nat k) + 1)%nat with (i + k + 1)%nat by lia.
    rewrite drop_app_le by lia. by rewrite <- !app_assoc.
  - cbn [start_index end_index]. lia.
  - cbn [start_index end_index]. rewrite length_app. lia.
Qed.

Lemma edit_is_local_foo :
  locate_and_replace (foo_buffer ++ chars " fn bar() {}") foo_signature "foo"
    foo_replacement
  = Ok (foo_replacement ++ chars " fn bar() {}").
Proof.
  exact (edit_is_local foo_buffer foo_signature foo_replacement
           (chars " fn bar() {}") foo_replacement "foo" eq_refl).
Defined.

(** ** Editing the output of an edit *)

(** The buffer after an edit, split around the new text. *)
Lemma locate_and_replace_split (B sig new B' : str) (name : string) :
  locate_and_replace B sig name new = Ok B' →
  ∃ (pre post r : str),
    B = pre ++ sig ++ r
    ∧ B' = pre ++ new ++ post
    ∧ find B sig = Z.of_nat (length pre).
Proof.
  intros (i & k & Hi & _ & Hk & _ & ->)%locate_and_replace_Ok.
  pose proof Hi as [[_ [r Hr]] _]%find_first.
  exists (take i B), (drop (i + k + 1) B), r. split; [|split; [done|]].
  - by rewrite <- Hr, take_drop.
  - rewrite length_take, Nat.min_l by lia. done.
Qed.

(** Editing again with a text that starts with the signature and closes its
    own block [m] characters in: the text is found where it was put and is
    replaced up to its close brace, so what it holds after that brace is
    there twice. *)
Lemma edit_again (B sig new B' : str) (name : string) (m : nat) :
  startswith sig new = true →
  scan_from new 0 0 = Some (Z.of_nat m) →
  locate_and_replace B sig name new = Ok B' →
  ∃ pre post,
    B' = pre ++ new ++ post
    ∧ locate_and_replace B' sig name new
      = Ok (pre ++ new ++ drop (S m) new ++ post).
Proof.
  intros [rest Hnew]%startswith_prefix Hscan
    (pre & post & r & -> & -> & Hfind)%locate_and_replace_split.
  exists pre, post. split; [done|].
  destruct (scan_from_Some _ _ _ _ Hscan) as (m' & Hm' & Hm).
  assert (m' = m) as -> by lia. clear Hm'.
  assert (find (pre ++ new ++ post) sig = Z.of_nat (length pre)) as Hfind'.
  { apply (find_agree _ _ sig _ (length pre + length sig) Hfind); [done|].
    rewrite Hnew, <- !app_assoc.
    rewrite !(app_assoc pre sig).
    rewrite !take_app_length'; [done| |]; by rewrite length_app. }
  unfold locate_and_replace, locate, scan. rewrite Hfind'.
  destruct (Z.eqb_spec (Z.of_nat (length pre)) (-1)); [lia|].
  rewrite Nat2Z.id, drop_app_length.
  rewrite (scan_from_app new post _ _ _ (scan_from_shift new _ 0 m Hscan)).
  cbn [mbind result_bind mret result_ret]. f_equal.
  rewrite replace_block_take_drop.
  - cbn [start_index end_index]. rewrite Nat2Z.id, take_app_length.
    do 2 f_equal.
    replace (Z.to_nat (Z.of_nat (length pre) + Z.of_nat m) + 1)%nat
      with (length pre + S m)%nat by lia.
    rewrite drop_app_add. by rewrite drop_app_le by lia.
  - cbn [start_index end_index]. lia.
  - cbn [start_index end_index]. rewrite !length_app. lia.
Qed.

(** X9.  The replacement of [startStreamWithMcp] applied to its own output:
    the method it wrote is found again and written again, and because the
    replacement text ends with a newline after the close brace of the
    method, every further application leaves one more newline after the
    method and changes nothing else. *)
Theorem start_replacement_again (B B' : str) :
  locate_and_replace B start_signature "startStreamWithMcp" new_start = Ok B' →
  ∃ pre post,
    B' = pre ++ new_start ++ post
    ∧ locate_and_replace B' start_signature "startStreamWithMcp" new_start
      = Ok (pre ++ new_start ++ [10%N] ++ post).
Proof.
  intros H.
  assert (drop 1063 new_start = [10%N]) as <- by by vm_compute.
  apply (edit_again B start_signature new_start B' _ 1062); [..|done].
  - by vm_compute.
  - by vm_compute.
Qed.

Lemma start_replacement_again_stub :
  ∃ pre post,
    new_start = pre ++ new_start ++ post
    ∧ locate_and_replace new_start start_signature "startStreamWithMcp" new_start
      = Ok (pre ++ new_start ++ [10%N] ++ post).
Proof.
  apply (start_replacement_again (start_signature ++ [close_brace]) new_start).
  by vm_compute.
Defined.

(** Editing with a text in which no tail of the signature (the whole
    signature included) is a beginning: after the edit the signature does
    not occur at or before the offset where it was found. *)
Lemma edit_moves_on (B sig new B' : str) (name : string) :
  sig ≠ [] →
  (length sig ≤ length new)%nat →
  (∀ d, (d < length sig)%nat → startswith (drop d sig) new = false) →
  locate_and_replace B sig name new = Ok B' →
  find B' sig = -1 ∨ find B sig < find B' sig.
Proof.
  intros Hsig Hlen Htail (pre & post & r & -> & -> & Hfind)%locate_and_replace_split.
  destruct (find_range (pre ++ new ++ post) sig) as [?|Hr]; [by left|]. right.
  rewrite Hfind.
  assert (find (pre ++ new ++ post) sig
          = Z.of_nat (Z.to_nat (find (pre ++ new ++ post) sig))) as Hj by lia.
  set (j := Z.to_nat (find (pre ++ new ++ post) sig)) in *.
  destruct (decide (length pre < j)%nat) as [?|Hle]; [lia|]. exfalso.
  apply find_first in Hj as [Hocc _]. apply find_first in Hfind as [_ Hmin].
  assert (0 < length sig)%nat as Hpos by (destruct sig; [done | simpl; lia]).
  destruct (decide (j + length sig ≤ length pre)%nat) as [Hin|Hout].
  - apply (Hmin j); [lia|].
    apply (occurs_at_agree sig (pre ++ new ++ post) _ j (length pre)); [done..|].
    by rewrite !take_app_length.
  - apply occurs_at_split in Hocc as (l & r' & Heq & Hl).
    apply (f_equal (drop (length pre))) in Heq.
    rewrite drop_app_length in Heq.
    replace (length pre) with (length l + (length pre - j))%nat in Heq by lia.
    rewrite drop_app_add, drop_app_le in Heq by lia.
    specialize (Htail (length pre - j)%nat ltac:(lia)).
    apply (f_equal (take (length (drop (length pre - j) sig)))) in Heq.
    rewrite take_app_length, take_app_le in Heq by (rewrite length_drop; lia).
    assert (startswith (drop (length pre - j) sig) new = true); [|congruence].
    apply startswith_prefix. rewrite <- Heq. apply prefix_take.
Qed.

(** X10.  After the replacement of [handleStreamFailure] the signature it
    searched for does not occur at or before the offset where it was found:
    the new text declares [rawError: unknown] where the signature says
    [rawError: any].  A further application therefore either exits with
    "handleStreamFailure not found" or rewrites a method further down. *)
Theorem handle_replacement_moves_on (B B' : str) :
  locate_and_replace B handle_signature "handleStreamFailure" new_handle = Ok B' →
  find B' handle_signature = -1
  ∨ find B handle_signature < find B' handle_signature.
Proof.
  apply edit_moves_on.
  - done.
  - apply Nat.leb_le. by vm_compute.
  - assert (forallb (λ d, negb (startswith (drop d handle_signature) new_handle))
              (seq 0 (length handle_signature)) = true) as Hall by by vm_compute.
    intros d Hd. rewrite forallb_forall in Hall.
    apply negb_true_iff, Hall, in_seq. lia.
Qed.

Lemma handle_replacement_moves_on_stub :
  find new_handle handle_signature = -1
  ∨ find (handle_signature ++ [close_brace]) handle_signature
    < find new_handle handle_signature.
Proof.
  apply (handle_replacement_moves_on (handle_signature ++ [close_brace]) new_handle).
  by vm_compute.
Defined.

(** ** What a successful edit sequence leaves *)

(** X12.  When the edit sequence succeeds, the signature of
    [startStreamWithMcp] occurred in the buffer after the insertions, and
    the resulting buffer holds the new [handleStreamFailure] in full. *)
Theorem patch_Ok_shape (B X : str) :
  patch B = Ok X →
  occurs start_signature (prepare B)
  ∧ ∃ pre post, X = pre ++ new_handle ++ post.
Proof.
  unfold patch. cbn zeta.
  destruct (locate_and_replace (prepare B) start_signature _ new_start)
    as [t|e] eqn:E1; [|done].
  cbn [mbind result_bind]. intros E2. split.
  - apply locate_and_replace_split in E1 as (pre & _ & r & -> & _ & _).
    by exists pre, r.
  - apply locate_and_replace_split in E2 as (pre & post & _ & _ & -> & _).
    by exists pre, post.
Qed.

Lemma patch_Ok_shape_fixture :
  occurs start_signature (prepare service_fixture)
  ∧ ∃ pre post, service_patched = pre ++ new_handle ++ post.
Proof. apply (patch_Ok_shape service_fixture service_patched). by vm_compute. Defined.
